(** * ActivityTracker: the table helpers of [templates/static/js/events.js]

    A shallow embedding of the four DOM helpers

      - [toggleSelectAll]  (select-all checkbox of a table),
      - [toggleSection]    (collapse / expand a section),
      - [filterTable]      (per-column text filters),
      - [collectBulkIds]   (ids of the checked rows, JSON-encoded),

    over a small model of the DOM: the document is a tree of elements, a
    node object is the path that leads to it from the root, and every
    helper is a computation in a state-and-exception monad over the
    document, so that a [TypeError] raised half-way leaves the writes
    that were already made.

    Modelling conventions, each visible in a definition below:
      - strings are [string]; [String.prototype.toLowerCase] is a
        function of the host, [toLowerCase] of the class [HostString],
        of which only one law is used: it maps the empty string, and no
        other, to the empty string. The development holds for every
        such function; the sample runs at the end use the lowering of
        the ASCII letters, which is what [toLowerCase] does on the
        ASCII texts of the sample pages;
      - [element.innerText] is computed, not stored: an element that is
        not rendered, because it or one of its ancestors has the inline
        display ["none"], gives its [textContent]; a rendered element
        gives its rendered text, which the user agent derives from the
        rendering, here a function of the inline displays of the
        document kept with the element ([renderedText]);
      - [value] is a string property of every element, as it is for the
        form controls the helpers are written for: an element of class
        [filter-input] that is no control, whose [value] is [undefined]
        and on which [filter.value.toLowerCase()] throws, is outside
        the model;
      - the [:checked] pseudo-class reads the [checked] property;
      - only element nodes are in the tree, so [children] is the element
        children collection of the source. *)

From Stdlib Require Import Ascii String Bool Arith Lia.
From stdpp Require Import base tactics option list strings.

Local Open Scope string_scope.

(** ** Host strings *)

Module JSString.

(** What the development asks of [String.prototype.toLowerCase]. *)
Class HostString := {
  toLowerCase : string → string;
  toLowerCase_empty : ∀ s, toLowerCase s = EmptyString ↔ s = EmptyString
}.

Definition lower_ascii (c : ascii) : ascii :=
  let n := nat_of_ascii c in
  if ((65 <=? n) && (n <=? 90))%nat then ascii_of_nat (n + 32) else c.

(** [toLowerCase] on texts made of ASCII characters. *)
Fixpoint ascii_toLowerCase (s : string) : string :=
  match s with
  | EmptyString => EmptyString
  | String c s' => String (lower_ascii c) (ascii_toLowerCase s')
  end.

#[export] Instance ascii_host : HostString :=
  {| toLowerCase := ascii_toLowerCase;
     toLowerCase_empty :=
       λ s, match s with
            | EmptyString => conj (λ _, eq_refl) (λ _, eq_refl)
            | String c s' =>
                conj (λ H : String (lower_ascii c) (ascii_toLowerCase s')
                            = EmptyString,
                        match H in _ = t
                              return match t with
                                     | EmptyString => String c s' = EmptyString
                                     | String _ _ => True
                                     end
                        with eq_refl => I end)
                     (λ H : String c s' = EmptyString,
                        match H in _ = t
                              return match t with
                                     | EmptyString =>
                                         String (lower_ascii c)
                                           (ascii_toLowerCase s')
                                         = EmptyString
                                     | String _ _ => True
                                     end
                        with eq_refl => I end)
            end |}.

(** [t] starts [s]. *)
Fixpoint startsWith (s t : string) {struct t} : bool :=
  match t, s with
  | EmptyString, _ => true
  | String _ _, EmptyString => false
  | String b t', String a s' => bool_decide (a = b) && startsWith s' t'
  end.

(** [String.prototype.includes]: [s.includes(t)]. *)
Fixpoint includes (s t : string) : bool :=
  startsWith s t ||
  match s with
  | EmptyString => false
  | String _ s' => includes s' t
  end.

(** Truthiness of a string: [if (s)] holds for the non-empty ones. *)
Definition truthy (s : string) : bool :=
  match s with EmptyString => false | String _ _ => true end.

(** The mathematical notion [includes] decides. *)
Definition substring_of (t s : string) : Prop :=
  exists l r : string, s = l ++ t ++ r.

End JSString.
Import JSString.

(** ** The document tree *)

Module DOM.

(** A node object is the list of child indices leading to it. *)
Definition path := list nat.

(** What a rendered text may depend on: the inline display of every
    element of the document, in document order. *)
Definition Rendering := list (path * string).

(** The properties of an element that the helpers read or write. *)
Record Props := mkProps {
  localName : string;          (* tag name, lower case *)
  id_attr : string;            (* [id] attribute, empty when absent *)
  classList : list string;
  style_display : string;      (* [element.style.display] *)
  checked : bool;
  value : string;
  textContent : string;
  renderedText : Rendering → string  (* [innerText] while rendered *)
}.

#[local] Unset Elimination Schemes.
Inductive Node := mkNode { props : Props; children : list Node }.
#[local] Set Elimination Schemes.

Definition set_display (d : string) (e : Props) : Props :=
  mkProps (localName e) (id_attr e) (classList e) d
          (checked e) (value e) (textContent e) (renderedText e).

Definition set_checked (b : bool) (e : Props) : Props :=
  mkProps (localName e) (id_attr e) (classList e) (style_display e)
          b (value e) (textContent e) (renderedText e).

Definition set_value (v : string) (e : Props) : Props :=
  mkProps (localName e) (id_attr e) (classList e) (style_display e)
          (checked e) v (textContent e) (renderedText e).

Definition set_classList (cl : list string) (e : Props) : Props :=
  mkProps (localName e) (id_attr e) cl (style_display e)
          (checked e) (value e) (textContent e) (renderedText e).
(** [DOMTokenList]: [contains], [add], [remove]. *)
Definition contains (cl : list string) (tok : string) : bool :=
  bool_decide (tok ∈ cl).

Definition add (tok : string) (cl : list string) : list string :=
  if contains cl tok then cl else cl ++ [tok].

Definition remove (tok : string) (cl : list string) : list string :=
  filter (λ c, c ≠ tok) cl.

(** The element at a path, if the path leads somewhere. *)
Fixpoint get (n : Node) (p : path) : option Props :=
  match p with
  | [] => Some (props n)
  | i :: p' =>
      match children n !! i with
      | Some c => get c p'
      | None => None
      end
  end.

(** Writing properties of the element at a path; the shape of the tree
    is left alone, and a path that leads nowhere writes nothing. *)
Fixpoint update (p : path) (f : Props → Props) (n : Node) : Node :=
  match p with
  | [] => mkNode (f (props n)) (children n)
  | i :: p' =>
      match children n !! i with
      | Some c => mkNode (props n) (<[i := update p' f c]> (children n))
      | None => n
      end
  end.

Fixpoint number_from (i : nat) (ls : list (list path)) : list path :=
  match ls with
  | [] => []
  | l :: ls' => map (cons i) l ++ number_from (S i) ls'
  end.

(** All the nodes of a tree in document (pre-) order. *)
Fixpoint paths (n : Node) : list path :=
  match n with
  | mkNode _ cs => [] :: number_from 0 (map paths cs)
  end.

(** The proper ancestors of a node, outermost first. *)
Fixpoint ancestors (p : path) : list path :=
  match p with
  | [] => []
  | i :: p' => [] :: map (cons i) (ancestors p')
  end.

(** [a] is a proper ancestor of [p]. *)
Definition is_ancestor (a p : path) : bool := bool_decide (a ∈ ancestors p).

(** The inline displays of the document. *)
Definition displays (doc : Node) : Rendering :=
  omap (λ q, (λ e, (q, style_display e)) <$> get doc q) (paths doc).

(** An element is not rendered when it, or one of its ancestors, has
    the inline display ["none"]. *)
Definition not_rendered (doc : Node) (p : path) : bool :=
  existsb (λ q, bool_decide (style_display <$> get doc q = Some "none"))
          (p :: ancestors p).

(** [element.innerText]: the text content of an element that is not
    rendered, the rendered text of one that is. *)
Definition innerText (doc : Node) (p : path) : option string :=
  (λ e, if not_rendered doc p then textContent e
        else renderedText e (displays doc)) <$> get doc p.

End DOM.
Import DOM.

(** ** Selectors *)

Module Selectors.

(** A compound selector: an optional type selector, an optional class
    selector, and whether [:checked] is attached. *)
Record Compound := mkCompound {
  sel_tag : option string;
  sel_class : option string;
  sel_checked : bool
}.

(** A complex selector built with the descendant combinator: the
    compound of the subject first, then those of its ancestors, going
    outwards. *)
Definition Selector := list Compound.

Definition matches_compound (c : Compound) (e : Props) : bool :=
  match sel_tag c with
  | Some t => bool_decide (localName e = t)
  | None => true
  end
  && match sel_class c with
     | Some k => contains (classList e) k
     | None => true
     end
  && implb (sel_checked c) (checked e).

(** The selector is matched against the whole document: the ancestors
    it asks for may lie outside the element the query starts from. *)
Fixpoint matches (doc : Node) (sel : Selector) (q : path) : bool :=
  match sel with
  | [] => true
  | c :: outer =>
      match get doc q with
      | Some e => matches_compound c e
      | None => false
      end
      && match outer with
         | [] => true
         | _ :: _ => existsb (matches doc outer) (ancestors q)
         end
  end.

(** ["input.event-checkbox"] *)
Definition sel_event_checkbox : Selector :=
  [mkCompound (Some "input") (Some "event-checkbox") false].

(** ["input.event-checkbox:checked"] *)
Definition sel_event_checkbox_checked : Selector :=
  [mkCompound (Some "input") (Some "event-checkbox") true].

(** [".filter-input"] *)
Definition sel_filter_input : Selector :=
  [mkCompound None (Some "filter-input") false].

(** ["tbody tr"] *)
Definition sel_tbody_tr : Selector :=
  [mkCompound (Some "tr") None false; mkCompound (Some "tbody") None false].

(** [base.querySelectorAll(sel)]: the descendants of [base] that match,
    in document order. *)
Definition select (doc : Node) (base : path) (sel : Selector) : list path :=
  filter (λ q, is_ancestor base q ∧ matches doc sel q) (paths doc).

(** [document.getElementById(id)]: the first element in document order
    with that id, [None] (null) when there is none. *)
Definition element_by_id (doc : Node) (id : string) : option path :=
  if decide (id = "") then None
  else head (filter (λ q, id_attr <$> get doc q = Some id) (paths doc)).

End Selectors.
Import Selectors.
(** ** Computations on the document *)

Module Script.

Inductive Error := TypeError.

Inductive Completion (A : Type) :=
| Normal (a : A)
| Throw (e : Error).
Arguments Normal {A} a.
Arguments Throw {A} e.

(** A reference held in a variable: a node, or [None] for [null] and
    [undefined]. *)
Definition Ref := option path.

(** A computation returns or throws, and leaves a document behind. *)
Definition M (A : Type) : Type := Node → Completion A * Node.

Definition ret {A} (a : A) : M A := λ doc, (Normal a, doc).

Definition bind {A B} (m : M A) (k : A → M B) : M B :=
  λ doc,
    match m doc with
    | (Normal a, doc') => k a doc'
    | (Throw e, doc') => (Throw e, doc')
    end.

Notation "'let*' x ':=' m 'in' k" := (bind m (λ x, k))
  (at level 10, x name, m at level 100, k at level 200).

Definition getElementById (id : string) : M Ref :=
  λ doc, (Normal (element_by_id doc id), doc).

(** Reading a property; on [null] or [undefined] this is a [TypeError]. *)
Definition read {A} (r : Ref) (prop : Props → A) : M A :=
  λ doc,
    match r ≫= get doc with
    | Some e => (Normal (prop e), doc)
    | None => (Throw TypeError, doc)
    end.

(** Writing properties of the referenced element. *)
Definition write (r : Ref) (f : Props → Props) : M unit :=
  λ doc,
    match r with
    | Some p =>
        match get doc p with
        | Some _ => (Normal tt, update p f doc)
        | None => (Throw TypeError, doc)
        end
    | None => (Throw TypeError, doc)
    end.

Definition querySelectorAll (r : Ref) (sel : Selector) : M (list path) :=
  λ doc,
    match r with
    | Some base =>
        match get doc base with
        | Some _ => (Normal (select doc base sel), doc)
        | None => (Throw TypeError, doc)
        end
    | None => (Throw TypeError, doc)
    end.

(** [node.children[i]]: [undefined] past the end. *)
Definition children_item (node : path) (i : nat) : M Ref :=
  λ doc,
    (Normal (match get doc (node ++ [i])%list with
             | Some _ => Some (node ++ [i])%list
             | None => None
             end), doc).

Definition classList_add (r : Ref) (tok : string) : M unit :=
  write r (λ e, set_classList (add tok (classList e)) e).

Definition classList_remove (r : Ref) (tok : string) : M unit :=
  write r (λ e, set_classList (remove tok (classList e)) e).

(** [cell.innerText]; on [null] or [undefined] this is a [TypeError]. *)
Definition read_innerText (r : Ref) : M string :=
  λ doc,
    match r ≫= innerText doc with
    | Some text => (Normal text, doc)
    | None => (Throw TypeError, doc)
    end.

(** [list.forEach((x, idx) => ...)] *)
Fixpoint forEach_from {A} (idx : nat) (l : list A)
    (f : A → nat → M unit) : M unit :=
  match l with
  | [] => ret tt
  | x :: l' => let* _ := f x idx in forEach_from (S idx) l' f
  end.

Definition forEach {A} (l : list A) (f : A → nat → M unit) : M unit :=
  forEach_from 0 l f.

(** [forEach] with a callback that assigns to one captured [let]
    variable: the variable is threaded through the calls. *)
Fixpoint forEach_var_from {A V} (idx : nat) (l : list A)
    (f : A → nat → V → M V) (v : V) : M V :=
  match l with
  | [] => ret v
  | x :: l' => let* v' := f x idx v in forEach_var_from (S idx) l' f v'
  end.

Definition forEach_var {A V} (l : list A) (f : A → nat → V → M V)
    (v : V) : M V :=
  forEach_var_from 0 l f v.

(** [[...list].map(x => ...)] *)
Fixpoint map_list {A B} (l : list A) (f : A → M B) : M (list B) :=
  match l with
  | [] => ret []
  | x :: l' =>
      let* y := f x in
      let* ys := map_list l' f in
      ret (y :: ys)
  end.

End Script.
Import Script.

(** ** [JSON.stringify] on an array of strings *)

Module JSON.

Definition dquote : ascii := "034"%char.
Definition backslash : ascii := "092"%char.

Definition hex_digit (n : nat) : ascii :=
  if (n <? 10)%nat then ascii_of_nat (48 + n) else ascii_of_nat (87 + n).

(** [\u00XX] for a control character. *)
Definition unicode_escape (n : nat) : string :=
  String backslash
    (String "u" (String "0" (String "0"
      (String (hex_digit (n / 16)) (String (hex_digit (n mod 16)) ""))))).

Definition quote_char (c : ascii) : string :=
  let n := nat_of_ascii c in
  if (n =? 8)%nat then String backslash "b"
  else if (n =? 9)%nat then String backslash "t"
  else if (n =? 10)%nat then String backslash "n"
  else if (n =? 12)%nat then String backslash "f"
  else if (n =? 13)%nat then String backslash "r"
  else if (n =? 34)%nat then String backslash (String dquote "")
  else if (n =? 92)%nat then String backslash (String backslash "")
  else if (n <? 32)%nat then unicode_escape n
  else String c "".

Fixpoint quote_body (s : string) : string :=
  match s with
  | EmptyString => EmptyString
  | String c s' => quote_char c +:+ quote_body s'
  end.

(** [QuoteJSONString] *)
Definition quote (s : string) : string :=
  String dquote (quote_body s +:+ String dquote "").

Fixpoint join (sep : string) (l : list string) : string :=
  match l with
  | [] => ""
  | [s] => s
  | s :: l' => s +:+ sep +:+ join sep l'
  end.

(** [JSON.stringify(ids)] for an array of strings, no indentation. *)
Definition stringify (ids : list string) : string :=
  "[" +:+ join "," (map quote ids) +:+ "]".

End JSON.

(** ** A sample page

    The markup the helpers are written for: a collapsible section with
    its icon, a hidden input, and a table whose header holds the
    select-all checkbox and the filter inputs, and whose body rows start
    with a checkbox cell. *)

Module Sample.

Definition element (tag id : string) (classes : list string)
    (kids : list Node) : Node :=
  mkNode (mkProps tag id classes "" false "" "" (λ _, "")) kids.

(** A cell whose rendered text is its text content. *)
Definition text_cell (text : string) : Node :=
  mkNode (mkProps "td" "" [] "" false "" text (λ _, text)) [].

(** A cell that is rendered as [rendered] and whose text content is
    [content]: white space is collapsed on the screen, kept in the
    content. *)
Definition rendered_cell (rendered content : string) : Node :=
  mkNode (mkProps "td" "" [] "" false "" content (λ _, rendered)) [].

Definition filter_input (v : string) : Node :=
  mkNode (mkProps "input" "" ["filter-input"] "" false v "" (λ _, "")) [].

Definition event_checkbox (v : string) (c : bool) : Node :=
  mkNode (mkProps "input" "" ["event-checkbox"] "" c v "" (λ _, "")) [].

(** A body row: its inline display, the checkbox and the data cells. *)
Definition row_of (display id : string) (c : bool)
    (cells : list Node) : Node :=
  mkNode (mkProps "tr" "" [] display false "" "" (λ _, ""))
         (element "td" "" [] [event_checkbox id c] :: cells).

Definition body_row (display id : string) (c : bool)
    (cells : list string) : Node :=
  row_of display id c (map text_cell cells).

Definition header (filters : list string) : Node :=
  element "thead" "" []
    [element "tr" "" []
       (element "th" "" [] [element "input" "select-all" [] []]
        :: map (λ v, element "th" "" [] [filter_input v]) filters)].

Definition table (filters : list string) (rows : list Node) : Node :=
  element "table" "events" [] [header filters; element "tbody" "" [] rows].

Definition section (display : string) : Node :=
  mkNode (mkProps "div" "details" [] display false "" "" (λ _, "")) [].

Definition icon (classes : list string) : Node :=
  element "span" "details-icon" classes [].

Definition page (display : string) (classes : list string)
    (filters : list string) (rows : list Node) : Node :=
  element "body" "" []
    [section display; icon classes;
     element "input" "bulk-ids" [] []; table filters rows].

(** The paths of the parts of [page]. *)
Definition section_path : path := [0].
Definition icon_path : path := [1].
Definition hidden_path : path := [2].
Definition table_path : path := [3].
Definition select_all_path : path := [3; 0; 0; 0; 0].
Definition row_path (i : nat) : path := [3; 1; i].

(** P4 of the specification: one filter, three rows. *)
Definition names_page (filter : string) : Node :=
  page "none" [] [filter]
    [body_row "" "7" true ["Alice"];
     body_row "" "3" false ["Bob"];
     body_row "none" "9" true ["Alisha"]].

(** Two filters over rows that are too short for them: the first row
    has one data cell, the second none. *)
Definition short_page (filter0 filter1 : string) : Node :=
  page "" [] [filter0; filter1]
    [body_row "" "7" false ["Alice"];
     body_row "none" "3" false []].

(** One filter over one displayed row, whose cell holds two words
    separated by two spaces and shown with one. *)
Definition spaced_page (filter : string) : Node :=
  page "" [] [filter]
    [row_of "" "7" false [rendered_cell "foo bar" "foo  bar"]].

End Sample.

(** ** The host

    From here to the end of the section [toLowerCase] is that of an
    arbitrary host: every definition and every theorem that depends on
    it takes the host as a parameter. The sample runs after the section
    are made with [ascii_host]. *)

Section Host.

Context `{host : HostString}.

(** ** The helpers of [events.js] *)

(* HANDLE SELECT ALL FOR BULK ACTIONS *)
Definition toggleSelectAll (checkbox : Ref) (tableId : string) : M unit :=
  let* checked := read checkbox checked in
  let* table := getElementById tableId in
  let* rows := querySelectorAll table sel_event_checkbox in
  forEach rows (λ cb _, write (Some cb) (set_checked checked)).

(* COLLAPSE / EXPAND SECTIONS *)
Definition toggleSection (sectionId iconId : string) : M unit :=
  let* section := getElementById sectionId in
  let* icon := getElementById iconId in
  let* display := read section style_display in
  if bool_decide (display = "none") then
    let* _ := write section (set_display "block") in
    classList_add icon "open"
  else
    let* _ := write section (set_display "none") in
    classList_remove icon "open".

(* FILTERING (COLUMN FILTERS) *)

(** The callback of [filters.forEach]: it reads the filter, takes the
    cell of the row one past the filter's position, and clears [visible]
    when a non-empty filter value is not found in the cell. The cell is
    read only on the right of [&&]. *)
Definition check_filter (row filter : path) (idx : nat) (visible : bool)
    : M bool :=
  let* v := read (Some filter) value in
  let filterValue := toLowerCase v in
  let* cell := children_item row (idx + 1) in (* skip checkbox column *)
  if truthy filterValue then
    let* text := read_innerText cell in
    if negb (includes (toLowerCase text) filterValue)
    then ret false
    else ret visible
  else ret visible.

(** The callback of [rows.forEach]. *)
Definition filter_row (filters : list path) (row : path) (_ : nat)
    : M unit :=
  let* visible := forEach_var filters (check_filter row) true in
  write (Some row) (set_display (if visible : bool then "" else "none")).

Definition filterTable (tableId : string) : M unit :=
  let* table := getElementById tableId in
  let* filters := querySelectorAll table sel_filter_input in
  let* rows := querySelectorAll table sel_tbody_tr in
  forEach rows (filter_row filters).

(* BULK ASSIGN: COLLECT SELECTED IDS *)
Definition collectBulkIds (tableId hiddenInputId : string) : M unit :=
  let* table := getElementById tableId in
  let* checkboxes := querySelectorAll table sel_event_checkbox_checked in
  let* ids := map_list checkboxes (λ cb, read (Some cb) value) in
  let* hidden := getElementById hiddenInputId in
  write hidden (set_value (JSON.stringify ids)).
(** ** What an observer reads in a document *)

Definition display_of (doc : Node) (p : path) : option string :=
  style_display <$> get doc p.

Definition checked_of (doc : Node) (p : path) : option bool :=
  checked <$> get doc p.

Definition value_of (doc : Node) (p : path) : option string :=
  value <$> get doc p.

Definition classes_of (doc : Node) (p : path) : option (list string) :=
  classList <$> get doc p.

(** [icon.classList.contains(tok)] *)
Definition has_class (doc : Node) (p : path) (tok : string) : option bool :=
  (λ e, contains (classList e) tok) <$> get doc p.

(** The two states of a section, as [toggleSection] reads them. *)
Inductive SectionState := HIDDEN | VISIBLE.

Definition state_of_display (d : string) : SectionState :=
  if bool_decide (d = "none") then HIDDEN else VISIBLE.

Definition section_state (doc : Node) (p : path) : option SectionState :=
  state_of_display <$> display_of doc p.

(** Running a computation twice in succession. *)
Definition twice (m : M unit) : M unit := let* _ := m in m.

(** A loop that writes the same properties on every node of a list. *)
Definition write_all (f : Props → Props) (l : list path) (doc : Node)
    : Node :=
  foldl (λ d q, update q f d) doc l.

(** What the section and the icon are told by [toggleSection], by the
    display it read on the section. *)
Definition next_display (es : Props) : string :=
  if bool_decide (style_display es = "none") then "block" else "none".

Definition next_classes (es ei : Props) : list string :=
  if bool_decide (style_display es = "none")
  then add "open" (classList ei)
  else remove "open" (classList ei).

(** The two-cycle property of [toggleSection] as the specification words
    it: two calls in succession bring back the visible/hidden state of
    the section and the presence of ["open"] on the icon. *)
Definition toggle_twice_restores (doc : Node) (sectionId iconId : string)
    : Prop :=
  ∃ s i doc2,
    element_by_id doc sectionId = Some s ∧
    element_by_id doc iconId = Some i ∧
    twice (toggleSection sectionId iconId) doc = (Normal tt, doc2) ∧
    section_state doc2 s = section_state doc s ∧
    has_class doc2 i "open" = has_class doc i "open".

(** The checkboxes of a table that are checked, in document order: the
    elements matching [input.event-checkbox] whose [checked] holds. *)
Definition checked_boxes (doc : Node) (t : path) : list path :=
  filter (λ q, checked_of doc q = Some true)
         (select doc t sel_event_checkbox).

(** *** The filter, in the words of the specification *)

(** The cell the filter at position [i] is compared with: index [i + 1]
    of the row, past the checkbox column. *)
Definition cell_of (row : path) (i : nat) : path := (row ++ [i + 1])%list.

(** The text [filterTable] reads on an element: its [innerText], as the
    document is at that moment. *)
Definition text_of (doc : Node) (p : path) : option string :=
  innerText doc p.

(** A row passes when every filter whose value is not empty finds its
    lower-cased value inside the lower-cased text of its cell. *)
Definition row_passes (doc : Node) (filters : list path) (row : path)
    : Prop :=
  ∀ i f v,
    filters !! i = Some f → value_of doc f = Some v → v ≠ "" →
    ∃ text,
      text_of doc (cell_of row i) = Some text ∧
      substring_of (toLowerCase v) (toLowerCase text).

(** The cells that the non-empty filters look at are there. *)
Definition cells_present (doc : Node) (filters : list path) (row : path)
    : Prop :=
  ∀ i f v,
    filters !! i = Some f → value_of doc f = Some v → v ≠ "" →
    is_Some (get doc (cell_of row i)).

(** Some non-empty filter has no cell to look at in the row. *)
Definition cell_missing (doc : Node) (filters : list path) (row : path)
    : Prop :=
  ∃ i f v,
    filters !! i = Some f ∧ value_of doc f = Some v ∧ v ≠ "" ∧
    get doc (cell_of row i) = None.

(** The display written on a row. *)
Definition shown (visible : bool) : string :=
  if visible then "" else "none".

(** Two documents that differ at most in the [display] of their
    elements. *)
Definition same_but_display (doc doc' : Node) : Prop :=
  paths doc' = paths doc ∧
  ∀ q, set_display "" <$> get doc' q = set_display "" <$> get doc q.

(** *** The loops of [filterTable] as functions of what they read *)

(** One call of [check_filter], from the value of the filter and the
    text of the cell ([None] where there is no such element). *)
Definition check_outcome (v text : option string) (visible : bool)
    : Completion bool :=
  match v with
  | None => Throw TypeError
  | Some v =>
      if truthy (toLowerCase v) then
        match text with
        | None => Throw TypeError
        | Some t =>
            Normal (if negb (includes (toLowerCase t) (toLowerCase v))
                    then false else visible)
        end
      else Normal visible
  end.

Fixpoint scan (doc : Node) (row : path) (idx : nat) (filters : list path)
    (visible : bool) : Completion bool :=
  match filters with
  | [] => Normal visible
  | f :: fs =>
      match check_outcome (value_of doc f)
                          (text_of doc (cell_of row idx)) visible with
      | Normal visible' => scan doc row (S idx) fs visible'
      | Throw e => Throw e
      end
  end.

(** The rows loop: every row is judged in the document as the loop
    finds it, with the displays of the rows before it already
    written. *)
Fixpoint sweep_live (filters rows : list path) (doc : Node)
    : Completion unit * Node :=
  match rows with
  | [] => (Normal tt, doc)
  | r :: rs =>
      match scan doc r 0 filters true with
      | Normal b => sweep_live filters rs (update r (set_display (shown b)) doc)
      | Throw e => (Throw e, doc)
      end
  end.


(** The document as the loop of [filterTable] reaches its [k]-th row:
    the callback has run on the rows before it. *)
Definition visit (filters rows : list path) (doc : Node) (k : nat) : Node :=
  (forEach (take k rows) (filter_row filters) doc).2.

(** The [innerText] of an element does not depend on the rendering: its
    rendered text is its text content, whatever the displays. *)
Definition stable_text (doc : Node) (p : path) : Prop :=
  ∀ e, get doc p = Some e → ∀ r, renderedText e r = textContent e.

(** [cells_present] and [row_passes] for the filters from position [idx]
    on, as the loop meets them. *)
Definition present_from (doc : Node) (filters : list path) (row : path)
    (idx : nat) : Prop :=
  ∀ i f v,
    filters !! i = Some f → value_of doc f = Some v → v ≠ "" →
    is_Some (get doc (cell_of row (idx + i))).

Definition passes_from (doc : Node) (filters : list path) (row : path)
    (idx : nat) : Prop :=
  ∀ i f v,
    filters !! i = Some f → value_of doc f = Some v → v ≠ "" →
    ∃ text,
      text_of doc (cell_of row (idx + i)) = Some text ∧
      substring_of (toLowerCase v) (toLowerCase text).

(** The markup the filter is written for: a row has a cell for every
    filter position. *)
Definition wide_enough (doc : Node) (filters : list path) (row : path)
    : bool :=
  forallb (λ i, bool_decide (is_Some (get doc (cell_of row i))))
          (seq 0 (length filters)).

(** *** Calls in sequence, and documents up to letter case *)

(** One helper, then another: the second runs only when the first
    returned. *)
Definition and_then (m1 m2 : M unit) : M unit := let* _ := m1 in m2.

(** Two elements that differ at most in the case of the letters of
    their value and of their texts. *)
Definition same_letters (e e' : Props) : Prop :=
  localName e' = localName e ∧ id_attr e' = id_attr e ∧
  classList e' = classList e ∧ style_display e' = style_display e ∧
  checked e' = checked e ∧
  toLowerCase (value e') = toLowerCase (value e) ∧
  toLowerCase (textContent e') = toLowerCase (textContent e) ∧
  ∀ r, toLowerCase (renderedText e' r) = toLowerCase (renderedText e r).

(** Two documents that differ at most in the case of the letters of
    their values and texts. *)
Definition same_up_to_case (doc doc' : Node) : Prop :=
  paths doc' = paths doc ∧
  ∀ q, match get doc q, get doc' q with
       | Some e, Some e' => same_letters e e'
       | None, None => True
       | _, _ => False
       end.

(** What [toggleSection] writes on the icon. *)
Definition toggle_icon (es : Props) (e : Props) : Props :=
  set_classList (next_classes es e) e.

(** *** The claims on the filter, as the specification words them *)

(** A row passes on its text content: as [row_passes], with the
    [textContent] of the cell in place of its [innerText]. *)
Definition content_passes (doc : Node) (filters : list path) (row : path)
    : Prop :=
  ∀ i f v,
    filters !! i = Some f → value_of doc f = Some v → v ≠ "" →
    ∃ text,
      textContent <$> get doc (cell_of row i) = Some text ∧
      substring_of (toLowerCase v) (toLowerCase text).

(** After the call a body row is visible exactly when it passes on the
    text content of its cells. *)
Definition visible_iff_content (doc : Node) (tableId : string) : Prop :=
  ∃ t doc',
    element_by_id doc tableId = Some t ∧
    filterTable tableId doc = (Normal tt, doc') ∧
    ∀ row, row ∈ select doc' t sel_tbody_tr →
      display_of doc' row = Some "" ↔
      content_passes doc' (select doc' t sel_filter_input) row.

(** After the call a body row is visible exactly when it passes on the
    text its cells then have. *)
Definition visible_iff_text_after (doc : Node) (tableId : string) : Prop :=
  ∃ t doc',
    element_by_id doc tableId = Some t ∧
    filterTable tableId doc = (Normal tt, doc') ∧
    ∀ row, row ∈ select doc' t sel_tbody_tr →
      display_of doc' row = Some "" ↔
      row_passes doc' (select doc' t sel_filter_input) row.


(** ** Facts about strings *)

Section StringFacts.

Lemma startsWith_spec s t :
  startsWith s t = true <-> exists r, s = t ++ r.
Proof.
  revert s; induction t as [|b t IH]; intros s; simpl.
  - split; [intros _; by exists s | done].
  - destruct s as [|a s]; simpl.
    + split; [done | intros [r Hr]; discriminate].
    + rewrite andb_true_iff, bool_decide_eq_true, IH. split.
      * intros [-> [r ->]]. by exists r.
      * intros [r Hr]. injection Hr as -> ->. eauto.
Qed.

Lemma includes_spec s t : includes s t = true <-> substring_of t s.
Proof.
  unfold substring_of. induction s as [|a s IH]; simpl.
  - rewrite orb_false_r, startsWith_spec. split.
    + intros [r Hr]. by exists EmptyString, r.
    + intros [l [r Hr]]. destruct l; simpl in Hr; [eauto | discriminate].
  - rewrite orb_true_iff, startsWith_spec, IH. split.
    + intros [[r Hr] | [l [r Hr]]].
      * by exists EmptyString, r.
      * exists (String a l), r. simpl. by rewrite Hr.
    + intros [l [r Hr]]. destruct l as [|b l]; simpl in Hr.
      * left. eauto.
      * right. injection Hr as _ ->. eauto.
Qed.

Lemma truthy_true s : truthy s = true <-> s <> EmptyString.
Proof. destruct s; simpl; split; done. Qed.

Lemma truthy_false s : truthy s = false <-> s = EmptyString.
Proof. destruct s; simpl; split; done. Qed.

Lemma truthy_toLowerCase s : truthy (toLowerCase s) = truthy s.
Proof.
  destruct (truthy s) eqn:Hs.
  - apply truthy_true. rewrite toLowerCase_empty. by apply truthy_true.
  - apply truthy_false. rewrite toLowerCase_empty. by apply truthy_false.
Qed.

End StringFacts.

(** ** Facts about the tree *)

Section TreeFacts.

(** *** Reading after writing *)

Lemma get_update p f n q :
  get (update p f n) q =
  if decide (p = q) then f <$> get n q else get n q.
Proof.
  revert n q; induction p as [|i p IH]; intros [e cs] q; simpl.
  - destruct q as [|j q]; simpl; [done|].
    by destruct (decide ([] = j :: q)).
  - destruct (cs !! i) as [c|] eqn:Hc; simpl.
    + destruct q as [|j q]; simpl.
      { by destruct (decide (i :: p = [])). }
      destruct (decide (i = j)) as [<-|Hij].
      * rewrite list_lookup_insert_eq by (by eapply lookup_lt_Some).
        rewrite Hc, IH. repeat case_decide; congruence.
      * rewrite list_lookup_insert_ne by done.
        rewrite decide_False; [done | congruence].
    + case_decide as Heq; [|done].
      subst q. simpl. by rewrite Hc.
Qed.

Lemma get_update_eq p f n : get (update p f n) p = f <$> get n p.
Proof. by rewrite get_update, decide_True. Qed.

Lemma get_update_ne p f n q : p ≠ q → get (update p f n) q = get n q.
Proof. intros. by rewrite get_update, decide_False. Qed.

Lemma update_id p f n e :
  get n p = Some e → f e = e → update p f n = n.
Proof.
  revert n; induction p as [|i p IH]; intros [e' cs]; simpl.
  - intros [= ->] ->. done.
  - destruct (cs !! i) as [c|] eqn:Hc; [|done].
    intros Hg Hf. rewrite (IH c Hg Hf). by rewrite list_insert_id.
Qed.

(** *** The shape of the tree *)

Lemma paths_unfold n :
  paths n = [] :: number_from 0 (map paths (children n)).
Proof. by destruct n. Qed.

Lemma paths_update p f n : paths (update p f n) = paths n.
Proof.
  revert n; induction p as [|i p IH]; intros [e cs]; simpl; [done|].
  destruct (cs !! i) as [c|] eqn:Hc; simpl; [|done].
  do 2 f_equal. rewrite list_fmap_insert, IH.
  apply list_insert_id. by rewrite list_lookup_fmap, Hc.
Qed.

Lemma elem_of_number_from i ls q :
  q ∈ number_from i ls ↔
  ∃ j q' l, q = (i + j) :: q' ∧ ls !! j = Some l ∧ q' ∈ l.
Proof.
  revert i; induction ls as [|l ls IH]; intros i; simpl.
  - split; [by intros ?%elem_of_nil | by intros (j & q' & l' & _ & ? & _)].
  - rewrite elem_of_app, list_elem_of_fmap, IH. split.
    + intros [(q' & -> & Hq') | (j & q' & l' & -> & Hl & Hq')].
      * exists 0, q', l. by rewrite Nat.add_0_r.
      * exists (S j), q', l'. by rewrite Nat.add_succ_r.
    + intros (j & q' & l' & -> & Hl & Hq'). destruct j as [|j]; simpl in Hl.
      * left. injection Hl as ->. exists q'. by rewrite Nat.add_0_r.
      * right. exists j, q', l'. by rewrite Nat.add_succ_r.
Qed.

(** The paths of the tree are exactly those that lead to an element. *)
Lemma elem_of_paths n q : q ∈ paths n ↔ is_Some (get n q).
Proof.
  revert n; induction q as [|i q IH]; intros n; rewrite paths_unfold.
  - simpl. split; [eauto | intros _; apply list_elem_of_here].
  - rewrite elem_of_cons, elem_of_number_from. simpl. split.
    + intros [? | (j & q' & l & [= -> ->] & Hl & Hq')]; [done|].
      rewrite list_lookup_fmap in Hl.
      destruct (children n !! j) as [c|]; simpl in Hl; [|done].
      injection Hl as <-. by apply IH.
    + intros Hs. right.
      destruct (children n !! i) as [c|] eqn:Hc; [|by destruct Hs].
      exists i, q, (paths c). split; [done|].
      rewrite list_lookup_fmap, Hc. split; [done | by apply IH].
Qed.

End TreeFacts.

(** ** Facts about the document model *)

Section ModelFacts.

Lemma contains_add tok cl : contains (add tok cl) tok = true.
Proof.
  unfold add. destruct (contains cl tok) eqn:Hc; [done|].
  apply bool_decide_eq_true, elem_of_app. right. apply list_elem_of_here.
Qed.

Lemma contains_remove tok cl : contains (remove tok cl) tok = false.
Proof.
  apply bool_decide_eq_false. unfold remove.
  rewrite list_elem_of_filter. by intros [? _].
Qed.

Lemma existsb_ext_in {A} (f g : A → bool) l :
  (∀ x, x ∈ l → f x = g x) → existsb f l = existsb g l.
Proof.
  induction l as [|x l IH]; simpl; [done|]. intros H.
  rewrite (H x) by apply list_elem_of_here.
  rewrite IH; [done|]. intros y Hy. apply H. by apply list_elem_of_further.
Qed.

Lemma matches_ext doc doc' sel q :
  (∀ c p, c ∈ sel →
     matches_compound c <$> get doc' p = matches_compound c <$> get doc p) →
  matches doc' sel q = matches doc sel q.
Proof.
  revert q; induction sel as [|c outer IH]; intros q H; simpl; [done|].
  f_equal.
  - specialize (H c q (list_elem_of_here _ _)).
    destruct (get doc' q), (get doc q); simpl in H; congruence.
  - destruct outer as [|c' outer]; [done|].
    apply existsb_ext_in. intros a _. apply IH.
    intros c0 p Hc0. apply H. by apply list_elem_of_further.
Qed.

Lemma select_ext doc doc' base sel :
  paths doc' = paths doc →
  (∀ c p, c ∈ sel →
     matches_compound c <$> get doc' p = matches_compound c <$> get doc p) →
  select doc' base sel = select doc base sel.
Proof.
  intros Hp H. unfold select. rewrite Hp.
  apply list_filter_iff. intros q. by rewrite (matches_ext doc doc').
Qed.

(** A write that no compound of the selector can see does not change
    what the selector finds. *)
Lemma select_update p f doc base sel :
  (∀ c e, c ∈ sel → matches_compound c (f e) = matches_compound c e) →
  select (update p f doc) base sel = select doc base sel.
Proof.
  intros H. apply select_ext; [apply paths_update|].
  intros c q Hc. rewrite get_update. case_decide; [|done].
  destruct (get doc q); simpl; [|done]. by rewrite H.
Qed.

Lemma select_valid doc base sel q :
  q ∈ select doc base sel → is_Some (get doc q).
Proof.
  unfold select. rewrite list_elem_of_filter. intros [_ ?].
  by apply elem_of_paths.
Qed.

Lemma element_by_id_Some doc id p :
  element_by_id doc id = Some p →
  ∃ e, get doc p = Some e ∧ id_attr e = id.
Proof.
  unfold element_by_id. case_decide; [done|].
  intros Hh%head_Some_elem_of. apply list_elem_of_filter in Hh as [Hid _].
  destruct (get doc p) as [e|]; simpl in Hid; [|done].
  exists e. split; [done | congruence].
Qed.

Lemma element_by_id_ext doc doc' id :
  paths doc' = paths doc →
  (∀ q, id_attr <$> get doc' q = id_attr <$> get doc q) →
  element_by_id doc' id = element_by_id doc id.
Proof.
  intros Hp H. unfold element_by_id. case_decide; [done|].
  rewrite Hp. f_equal. apply list_filter_iff. intros q. by rewrite H.
Qed.

Lemma element_by_id_update p f doc id :
  (∀ e, id_attr (f e) = id_attr e) →
  element_by_id (update p f doc) id = element_by_id doc id.
Proof.
  intros H. apply element_by_id_ext; [apply paths_update|].
  intros q. rewrite get_update. case_decide; [|done].
  destruct (get doc q); simpl; [|done]. by rewrite H.
Qed.

(** The proper ancestors of a node are its proper prefixes. *)
Lemma elem_of_ancestors a p :
  a ∈ ancestors p ↔ ∃ r, r ≠ [] ∧ p = (a ++ r)%list.
Proof.
  revert a; induction p as [|i p IH]; intros a; simpl.
  - split; [by intros ?%elem_of_nil|].
    intros (r & Hr & Heq). symmetry in Heq.
    by apply app_eq_nil in Heq as [_ ->].
  - rewrite elem_of_cons, list_elem_of_fmap. split.
    + intros [-> | (a' & -> & Ha')].
      * by exists (i :: p).
      * apply IH in Ha' as (r & Hr & ->). by exists r.
    + intros (r & Hr & Heq). destruct a as [|j a]; [by left|].
      right. simpl in Heq. injection Heq as <- ->.
      exists a. split; [done|]. apply IH. eauto.
Qed.

Lemma is_ancestor_spec a p :
  is_ancestor a p = true ↔ ∃ r, r ≠ [] ∧ p = (a ++ r)%list.
Proof.
  unfold is_ancestor. by rewrite bool_decide_eq_true, elem_of_ancestors.
Qed.

(** What the one-compound selectors of the helpers find under [base]. *)
Lemma elem_of_select_compound doc base c q :
  q ∈ select doc base [c] ↔
  is_ancestor base q = true ∧
  ∃ e, get doc q = Some e ∧ matches_compound c e = true.
Proof.
  unfold select. rewrite list_elem_of_filter, elem_of_paths. simpl.
  rewrite !Is_true_true.
  destruct (get doc q) as [e|]; simpl.
  - rewrite andb_true_r. split.
    + intros [[? ?] _]. eauto.
    + intros [? (e' & [= <-] & ?)]. eauto.
  - split; [by intros [[_ ?] _] | by intros [_ (e & ? & _)]].
Qed.

Lemma elem_of_select_event_checkbox doc base q :
  q ∈ select doc base sel_event_checkbox ↔
  is_ancestor base q = true ∧
  ∃ e, get doc q = Some e ∧
       localName e = "input" ∧ "event-checkbox" ∈ classList e.
Proof.
  unfold sel_event_checkbox. rewrite elem_of_select_compound.
  unfold matches_compound, contains. simpl.
  split; intros [Ha (e & He & Hm)]; (split; [done|]); exists e;
    (split; [done|]).
  - rewrite andb_true_r, andb_true_iff, !bool_decide_eq_true in Hm. done.
  - by rewrite andb_true_r, andb_true_iff, !bool_decide_eq_true.
Qed.

(** What ["tbody tr"] finds under [base]: the [tr] below [base] that
    have a [tbody] among their ancestors. *)
Lemma elem_of_select_tbody_tr doc base q :
  q ∈ select doc base sel_tbody_tr ↔
  is_ancestor base q = true ∧
  (∃ e, get doc q = Some e ∧ localName e = "tr") ∧
  ∃ a ea, a ∈ ancestors q ∧ get doc a = Some ea ∧ localName ea = "tbody".
Proof.
  unfold select. rewrite list_elem_of_filter, elem_of_paths. simpl.
  rewrite !Is_true_true, andb_true_iff, existsb_exists.
  unfold matches_compound. simpl. split.
  - intros [[Ha [Hq (a & Hin & Hm)]] _]. split; [done|]. split.
    + destruct (get doc q) as [e|]; [|done]. exists e. split; [done|].
      by rewrite !andb_true_r, bool_decide_eq_true in Hq.
    + exists a. destruct (get doc a) as [ea|]; [|done]. exists ea.
      rewrite !andb_true_r, bool_decide_eq_true in Hm.
      split; [by apply list_elem_of_In | done].
  - intros (Ha & (e & He & Htr) & a & ea & Hin & Hea & Htb).
    rewrite He. split; [|eauto]. split; [done|]. split.
    + by rewrite !andb_true_r, bool_decide_eq_true.
    + exists a. rewrite Hea. split; [by apply list_elem_of_In|].
      by rewrite !andb_true_r, bool_decide_eq_true.
Qed.

Lemma is_Some_get_update p f doc q :
  is_Some (get (update p f doc) q) ↔ is_Some (get doc q).
Proof.
  rewrite get_update. case_decide; [|done]. by rewrite fmap_is_Some.
Qed.

End ModelFacts.

(** ** Section toggle *)

Section ToggleSection.

Variables (doc : Node) (sectionId iconId : string) (s i : path).
Variables (es ei : Props).
Hypothesis Hsection : element_by_id doc sectionId = Some s.
Hypothesis Hicon : element_by_id doc iconId = Some i.
Hypothesis Hes : get doc s = Some es.
Hypothesis Hei : get doc i = Some ei.

(** One call, when both ids resolve: it returns, the ids still resolve
    to the same nodes, and the section and the icon hold what the
    branch taken wrote. The section and the icon may be one element. *)
Lemma toggleSection_post :
  ∃ doc' es' ei',
    toggleSection sectionId iconId doc = (Normal tt, doc') ∧
    element_by_id doc' sectionId = Some s ∧
    element_by_id doc' iconId = Some i ∧
    get doc' s = Some es' ∧ style_display es' = next_display es ∧
    get doc' i = Some ei' ∧ classList ei' = next_classes es ei.
Proof using Hsection Hicon Hes Hei.
  unfold toggleSection, bind, getElementById, read, classList_add,
    classList_remove, write, next_display, next_classes.
  rewrite Hsection, Hicon. simpl. rewrite Hes.
  destruct (bool_decide (style_display es = "none"));
    rewrite Hes, get_update, Hei;
    (destruct (decide (s = i)) as [->|Hne];
     [rewrite Hes in Hei; injection Hei as ->|]); simpl;
    eexists _, _, _; (split; [reflexivity|]);
    rewrite !element_by_id_update by done;
    rewrite !get_update; repeat case_decide; try congruence;
    rewrite ?Hes, ?Hei; simpl; done.
Qed.

End ToggleSection.

Lemma resolved_element doc id p :
  element_by_id doc id = Some p → is_Some (get doc p).
Proof. intros (e & -> & _)%element_by_id_Some. eauto. Qed.

(** C4. Section Toggle, one invocation: when the inline display of the
    section reads exactly ["none"], the display becomes ["block"] and
    ["open"] is added to the icon's classes; otherwise the display
    becomes ["none"] and ["open"] is removed from the icon's classes. *)
Theorem toggleSection_transition doc sectionId iconId s i es ei :
  element_by_id doc sectionId = Some s →
  element_by_id doc iconId = Some i →
  get doc s = Some es →
  get doc i = Some ei →
  ∃ doc',
    toggleSection sectionId iconId doc = (Normal tt, doc') ∧
    (style_display es = "none" →
       display_of doc' s = Some "block" ∧
       classes_of doc' i = Some (add "open" (classList ei)) ∧
       has_class doc' i "open" = Some true) ∧
    (style_display es ≠ "none" →
       display_of doc' s = Some "none" ∧
       classes_of doc' i = Some (remove "open" (classList ei)) ∧
       has_class doc' i "open" = Some false).
Proof.
  intros Hs Hi Hes Hei.
  destruct (toggleSection_post doc sectionId iconId s i es ei Hs Hi Hes Hei)
    as (doc' & es' & ei' & Hrun & _ & _ & Hs' & Hd & Hi' & Hc).
  exists doc'. split; [done|].
  unfold display_of, classes_of, has_class. rewrite Hs', Hi'. simpl.
  rewrite Hd, Hc. unfold next_display, next_classes.
  split; intros Hnone.
  - rewrite !bool_decide_eq_true_2 by done. by rewrite contains_add.
  - rewrite !bool_decide_eq_false_2 by done. by rewrite contains_remove.
Qed.

(** C5. Section Toggle on a section whose inline display was never set
    (it reads as the empty string): the first invocation hides the
    section, display ["none"], and removes ["open"] from the icon. *)
Theorem toggleSection_unset_collapses doc sectionId iconId s i es ei :
  element_by_id doc sectionId = Some s →
  element_by_id doc iconId = Some i →
  get doc s = Some es →
  get doc i = Some ei →
  style_display es = "" →
  ∃ doc',
    toggleSection sectionId iconId doc = (Normal tt, doc') ∧
    display_of doc' s = Some "none" ∧
    section_state doc' s = Some HIDDEN ∧
    classes_of doc' i = Some (remove "open" (classList ei)) ∧
    has_class doc' i "open" = Some false.
Proof.
  intros Hs Hi Hes Hei Hunset.
  destruct (toggleSection_post doc sectionId iconId s i es ei Hs Hi Hes Hei)
    as (doc' & es' & ei' & Hrun & _ & _ & Hs' & Hd & Hi' & Hc).
  exists doc'. split; [done|].
  unfold section_state, display_of, classes_of, has_class.
  rewrite Hs', Hi'. simpl. rewrite Hd, Hc.
  unfold next_display, next_classes. rewrite Hunset. simpl.
  by rewrite contains_remove.
Qed.

(** C9. After one invocation of Section Toggle the section and the icon
    agree, whatever they held before: either the display is ["block"]
    and the icon has ["open"], or the display is ["none"] and the icon
    does not have it. *)
Theorem toggleSection_consistent doc sectionId iconId s i :
  element_by_id doc sectionId = Some s →
  element_by_id doc iconId = Some i →
  ∃ doc',
    toggleSection sectionId iconId doc = (Normal tt, doc') ∧
    ((display_of doc' s = Some "block" ∧
      has_class doc' i "open" = Some true) ∨
     (display_of doc' s = Some "none" ∧
      has_class doc' i "open" = Some false)).
Proof.
  intros Hs Hi.
  destruct (resolved_element _ _ _ Hs) as [es Hes].
  destruct (resolved_element _ _ _ Hi) as [ei Hei].
  destruct (toggleSection_post doc sectionId iconId s i es ei Hs Hi Hes Hei)
    as (doc' & es' & ei' & Hrun & _ & _ & Hs' & Hd & Hi' & Hc).
  exists doc'. split; [done|].
  unfold display_of, has_class. rewrite Hs', Hi'. simpl. rewrite Hd, Hc.
  unfold next_display, next_classes.
  destruct (bool_decide (style_display es = "none")).
  - left. by rewrite contains_add.
  - right. by rewrite contains_remove.
Qed.

(** C3, amended. Two invocations of Section Toggle in succession bring
    the section back to its original visible/hidden state, for every
    initial display; the icon ends with ["open"] exactly when the
    section was originally not ["none"], so its class is back to what it
    was whenever the icon agreed with the section to begin with. *)
Theorem toggleSection_twice doc sectionId iconId s i es ei :
  element_by_id doc sectionId = Some s →
  element_by_id doc iconId = Some i →
  get doc s = Some es →
  get doc i = Some ei →
  ∃ doc2,
    twice (toggleSection sectionId iconId) doc = (Normal tt, doc2) ∧
    section_state doc2 s = section_state doc s ∧
    has_class doc2 i "open"
      = Some (negb (bool_decide (style_display es = "none"))) ∧
    (has_class doc i "open"
       = Some (negb (bool_decide (style_display es = "none"))) →
     has_class doc2 i "open" = has_class doc i "open").
Proof.
  intros Hs Hi Hes Hei.
  destruct (toggleSection_post doc sectionId iconId s i es ei Hs Hi Hes Hei)
    as (doc1 & es1 & ei1 & Hrun1 & Hs1 & Hi1 & Hes1 & Hd1 & Hei1 & _).
  destruct (toggleSection_post doc1 sectionId iconId s i es1 ei1
              Hs1 Hi1 Hes1 Hei1)
    as (doc2 & es2 & ei2 & Hrun2 & _ & _ & Hes2 & Hd2 & Hei2 & Hc2).
  exists doc2.
  assert (has_class doc2 i "open"
          = Some (negb (bool_decide (style_display es = "none")))) as Hopen.
  { unfold has_class. rewrite Hei2. simpl. rewrite Hc2.
    unfold next_classes. rewrite Hd1. unfold next_display.
    destruct (bool_decide (style_display es = "none")); simpl.
    - by rewrite contains_remove.
    - by rewrite contains_add. }
  split; [|split; [|split]].
  - unfold twice, bind. by rewrite Hrun1.
  - unfold section_state, display_of. rewrite Hes2, Hes. simpl.
    rewrite Hd2. unfold next_display. rewrite Hd1.
    unfold next_display, state_of_display.
    by destruct (bool_decide (style_display es = "none")).
  - done.
  - intros ->. done.
Qed.

(** ** Loops that write one property *)

Section WriteLoops.

Variable f : Props → Props.

Lemma forEach_write l idx doc :
  (∀ q, q ∈ l → is_Some (get doc q)) →
  forEach_from idx l (λ cb _, write (Some cb) f) doc
  = (Normal tt, write_all f l doc).
Proof.
  revert idx doc; induction l as [|x l IH]; intros idx doc Hv; simpl; [done|].
  unfold bind, write at 1.
  destruct (Hv x) as [e ->]; [apply list_elem_of_here|].
  apply IH. intros q Hq. apply is_Some_get_update, Hv.
  by apply list_elem_of_further.
Qed.

Lemma get_write_all l doc q :
  (∀ e, f (f e) = f e) →
  get (write_all f l doc) q
  = if decide (q ∈ l) then f <$> get doc q else get doc q.
Proof.
  intros Hidem. revert doc; induction l as [|x l IH]; intros doc.
  - rewrite decide_False; [done | apply not_elem_of_nil].
  - unfold write_all in *. cbn [foldl]. rewrite IH, get_update.
    assert (f <$> (f <$> get doc q) = f <$> get doc q) as Hff.
    { destruct (get doc q); simpl; [|done]. by rewrite Hidem. }
    destruct (decide (x = q)) as [->|Hne].
    + rewrite (decide_True (P := q ∈ q :: l)) by apply list_elem_of_here.
      case_decide; by rewrite ?Hff.
    + apply decide_ext. rewrite elem_of_cons. intuition congruence.
Qed.

Lemma select_write_all l doc base sel :
  (∀ c e, c ∈ sel → matches_compound c (f e) = matches_compound c e) →
  select (write_all f l doc) base sel = select doc base sel.
Proof.
  intros H. revert doc; induction l as [|x l IH]; intros doc; [done|].
  unfold write_all in *. cbn [foldl]. by rewrite IH, select_update.
Qed.

End WriteLoops.

(** ** Select-all toggle *)

(** C6. Select-All Toggle: called with a source checkbox whose [checked]
    is [b] and the id of a table, it returns, the set C of elements of
    the table matching [input.event-checkbox] is what it was, and every
    element of C has [checked] equal to [b], whatever it held before;
    nothing outside C is written. *)
Theorem toggleSelectAll_sets_all doc checkbox tableId t ecb :
  get doc checkbox = Some ecb →
  element_by_id doc tableId = Some t →
  ∃ doc',
    toggleSelectAll (Some checkbox) tableId doc = (Normal tt, doc') ∧
    select doc' t sel_event_checkbox = select doc t sel_event_checkbox ∧
    (∀ c, c ∈ select doc t sel_event_checkbox →
          checked_of doc' c = Some (checked ecb)) ∧
    (∀ q, q ∉ select doc t sel_event_checkbox → get doc' q = get doc q).
Proof.
  intros Hcb Ht.
  destruct (resolved_element _ _ _ Ht) as [et Het].
  exists (write_all (set_checked (checked ecb))
            (select doc t sel_event_checkbox) doc).
  split; [|split; [|split]].
  - unfold toggleSelectAll, bind, read, getElementById, querySelectorAll.
    simpl. rewrite Hcb, Ht, Het. unfold forEach.
    apply forEach_write. intros q. apply select_valid.
  - apply select_write_all. intros c e [-> | []%elem_of_nil]%elem_of_cons.
    done.
  - intros c Hc. unfold checked_of.
    rewrite get_write_all by done. rewrite decide_True by done.
    destruct (select_valid _ _ _ _ Hc) as [e ->]. done.
  - intros q Hq. rewrite get_write_all by done. by rewrite decide_False.
Qed.

(** ** Bulk-id collection *)

Lemma map_list_read {A} (prop : Props → A) l doc :
  (∀ q, q ∈ l → is_Some (get doc q)) →
  ∃ vs,
    map_list l (λ cb, read (Some cb) prop) doc = (Normal vs, doc) ∧
    Forall2 (λ q v, prop <$> get doc q = Some v) l vs.
Proof.
  induction l as [|x l IH]; intros Hv; simpl.
  - exists []. split; [done | constructor].
  - destruct IH as (vs & Hrun & Hvs).
    { intros q Hq. apply Hv. by apply list_elem_of_further. }
    destruct (Hv x) as [e He]; [apply list_elem_of_here|].
    exists (prop e :: vs). split.
    + unfold bind, read at 1. simpl. rewrite He, Hrun. done.
    + constructor; [by rewrite He | done].
Qed.

(** [:checked] keeps, of what the selector finds without it, the
    elements whose [checked] holds. *)
Lemma select_checked doc t :
  select doc t sel_event_checkbox_checked = checked_boxes doc t.
Proof.
  unfold checked_boxes, select. rewrite list_filter_filter.
  apply list_filter_iff. intros q. unfold checked_of. simpl.
  unfold matches_compound. simpl.
  destruct (get doc q) as [e|]; simpl.
  - destruct (checked e); simpl.
    + rewrite !andb_true_r. intuition.
    + rewrite !andb_false_r. simpl. intuition congruence.
  - intuition congruence.
Qed.

Lemma collectBulkIds_run doc tableId hiddenInputId t h :
  element_by_id doc tableId = Some t →
  element_by_id doc hiddenInputId = Some h →
  ∃ ids,
    collectBulkIds tableId hiddenInputId doc
    = (Normal tt, update h (set_value (JSON.stringify ids)) doc) ∧
    Forall2 (λ q v, value_of doc q = Some v) (checked_boxes doc t) ids.
Proof.
  intros Ht Hh.
  destruct (resolved_element _ _ _ Ht) as [et Het].
  destruct (resolved_element _ _ _ Hh) as [eh Heh].
  destruct (map_list_read value (checked_boxes doc t) doc) as (ids & Hrun & Hids).
  { intros q [_ Hq]%list_elem_of_filter. by eapply select_valid. }
  exists ids. split; [|done].
  unfold collectBulkIds, bind, getElementById, querySelectorAll, write.
  simpl. rewrite Ht, Het, select_checked, Hrun, Hh, Heh. done.
Qed.

(** C2. Bulk-ID Collection: it returns, and the value of the hidden
    input is [JSON.stringify] of the values of the checkboxes of the
    table that are checked at the call, in document order: unchecked
    ones contribute nothing, and a checked one contributes whatever the
    [display] of the row around it, which is never read. *)
Theorem collectBulkIds_payload doc tableId hiddenInputId t h :
  element_by_id doc tableId = Some t →
  element_by_id doc hiddenInputId = Some h →
  ∃ doc' ids,
    collectBulkIds tableId hiddenInputId doc = (Normal tt, doc') ∧
    value_of doc' h = Some (JSON.stringify ids) ∧
    Forall2 (λ q v, value_of doc q = Some v) (checked_boxes doc t) ids ∧
    (∀ q v, q ∈ select doc t sel_event_checkbox →
            checked_of doc q = Some true →
            value_of doc q = Some v → v ∈ ids) ∧
    (∀ q, q ∈ select doc t sel_event_checkbox →
          checked_of doc q = Some false →
          q ∉ checked_boxes doc t).
Proof.
  intros Ht Hh.
  destruct (collectBulkIds_run _ _ _ _ _ Ht Hh) as (ids & Hrun & Hids).
  destruct (resolved_element _ _ _ Hh) as [eh Heh].
  eexists _, ids. split; [exact Hrun|]. split; [|split; [done|split]].
  - unfold value_of. by rewrite get_update_eq, Heh.
  - intros q v Hq Hc Hv.
    assert (q ∈ checked_boxes doc t) as Hin.
    { apply list_elem_of_filter. by split. }
    apply list_elem_of_lookup in Hin as [k Hk].
    destruct (Forall2_lookup_l _ _ _ _ _ Hids Hk) as (v' & Hv' & Hqv').
    rewrite Hv in Hqv'. injection Hqv' as <-.
    apply list_elem_of_lookup. eauto.
  - intros q _ Hc [Hc' _]%list_elem_of_filter. congruence.
Qed.

(** C8. Bulk-ID Collection when no checkbox of the table is checked: it
    returns without a [TypeError] and the value of the hidden input is
    the two characters [[]]. *)
Theorem collectBulkIds_none_checked doc tableId hiddenInputId t h :
  element_by_id doc tableId = Some t →
  element_by_id doc hiddenInputId = Some h →
  (∀ q, q ∈ select doc t sel_event_checkbox →
        checked_of doc q ≠ Some true) →
  ∃ doc',
    collectBulkIds tableId hiddenInputId doc = (Normal tt, doc') ∧
    value_of doc' h = Some "[]".
Proof.
  intros Ht Hh Hnone.
  destruct (collectBulkIds_run _ _ _ _ _ Ht Hh) as (ids & Hrun & Hids).
  destruct (resolved_element _ _ _ Hh) as [eh Heh].
  assert (checked_boxes doc t = []) as Hempty.
  { apply elem_of_nil_inv. intros q [Hc Hq]%list_elem_of_filter.
    by apply (Hnone q). }
  rewrite Hempty in Hids. apply Forall2_nil_inv_l in Hids as ->.
  eexists. split; [exact Hrun|].
  unfold value_of. by rewrite get_update_eq, Heh.
Qed.

(** ** Facts about the shape of the tree and the texts *)

Section TextFacts.

Lemma Node_ind' (P : Node → Prop) :
  (∀ e cs, Forall P cs → P (mkNode e cs)) → ∀ n, P n.
Proof.
  intros Hnode. fix IH 1. intros [e cs]. apply Hnode.
  induction cs as [|c cs IHcs]; constructor; [apply IH | apply IHcs].
Qed.

Lemma NoDup_number_from i ls :
  Forall (λ l : list path, NoDup l) ls → NoDup (number_from i ls).
Proof.
  intros Hls. revert i; induction Hls as [|l ls Hl _ IH]; intros i; simpl.
  - constructor.
  - apply NoDup_app. split; [|split].
    + apply NoDup_fmap_2; [|done]. by intros q q' [= ->].
    + intros q (q' & -> & _)%list_elem_of_fmap
        (j & q2 & l2 & Heq & _)%elem_of_number_from.
      injection Heq as Heq _. lia.
    + apply IH.
Qed.

(** No node is met twice in document order. *)
Lemma NoDup_paths n : NoDup (paths n).
Proof.
  induction n as [e cs IH] using Node_ind'. rewrite paths_unfold. simpl.
  apply NoDup_cons. split.
  - intros (j & q & l & Heq & _)%elem_of_number_from. done.
  - apply NoDup_number_from. by apply Forall_fmap.
Qed.

Lemma NoDup_select doc base sel : NoDup (select doc base sel).
Proof. apply NoDup_filter, NoDup_paths. Qed.

Lemma displays_ext doc doc' :
  paths doc' = paths doc →
  (∀ q, style_display <$> get doc' q = style_display <$> get doc q) →
  displays doc' = displays doc.
Proof.
  intros Hp Hd. unfold displays. rewrite Hp.
  apply list_omap_ext, Forall2_same_length_lookup_2; [done|].
  intros i q q' Hq Hq'. assert (q' = q) as -> by congruence.
  specialize (Hd q).
  destruct (get doc' q) as [e'|], (get doc q) as [e|]; simpl in *;
    congruence.
Qed.

Lemma not_rendered_ext doc doc' p :
  (∀ q, style_display <$> get doc' q = style_display <$> get doc q) →
  not_rendered doc' p = not_rendered doc p.
Proof.
  intros Hd. unfold not_rendered. apply existsb_ext_in.
  intros q _. by rewrite Hd.
Qed.

(** The [innerText] of an element depends on its two texts and on the
    inline displays of the document, and on nothing else. *)
Lemma innerText_ext doc doc' p :
  paths doc' = paths doc →
  (∀ q, style_display <$> get doc' q = style_display <$> get doc q) →
  textContent <$> get doc' p = textContent <$> get doc p →
  renderedText <$> get doc' p = renderedText <$> get doc p →
  innerText doc' p = innerText doc p.
Proof.
  intros Hp Hd Hc Hr. unfold innerText.
  rewrite (displays_ext doc doc') by done.
  rewrite (not_rendered_ext doc doc') by done.
  destruct (get doc' p) as [e'|], (get doc p) as [e|]; simpl in *;
    try done.
  injection Hc as ->. injection Hr as ->. done.
Qed.

Lemma paths_write_all f l doc : paths (write_all f l doc) = paths doc.
Proof.
  revert doc; induction l as [|x l IH]; intros doc; [done|].
  unfold write_all in *. cbn [foldl]. by rewrite IH, paths_update.
Qed.

(** Writes that touch neither a display nor a text leave every
    [innerText] as it was. *)
Lemma text_of_write_all f l doc p :
  (∀ e, f (f e) = f e) →
  (∀ e, style_display (f e) = style_display e) →
  (∀ e, textContent (f e) = textContent e) →
  (∀ e, renderedText (f e) = renderedText e) →
  text_of (write_all f l doc) p = text_of doc p.
Proof.
  intros Hidem Hd Hc Hr. unfold text_of.
  apply innerText_ext; [apply paths_write_all|..];
    try intros q; rewrite get_write_all by done;
    (case_decide; [|done]);
    [destruct (get doc q)|destruct (get doc p)|destruct (get doc p)];
    simpl; by rewrite ?Hd, ?Hc, ?Hr.
Qed.

Lemma value_of_write_all f l doc p :
  (∀ e, f (f e) = f e) →
  (∀ e, value (f e) = value e) →
  value_of (write_all f l doc) p = value_of doc p.
Proof.
  intros Hidem Hv. unfold value_of. rewrite get_write_all by done.
  case_decide; [|done]. destruct (get doc p); simpl; by rewrite ?Hv.
Qed.

End TextFacts.

(** ** Column filter *)

Section FilterLoops.

Lemma text_of_is_Some doc p : is_Some (text_of doc p) ↔ is_Some (get doc p).
Proof. unfold text_of, innerText. apply fmap_is_Some. Qed.

Lemma text_of_None doc p : get doc p = None → text_of doc p = None.
Proof. intros Hp. unfold text_of, innerText. by rewrite Hp. Qed.

Lemma check_filter_run row f idx vis doc :
  check_filter row f idx vis doc
  = (check_outcome (value_of doc f) (text_of doc (cell_of row idx)) vis, doc).
Proof.
  unfold check_filter, bind, read, read_innerText, children_item, value_of,
    cell_of, check_outcome. simpl.
  destruct (get doc f) as [ef|]; simpl; [|done].
  destruct (truthy (toLowerCase (value ef))); [|done].
  destruct (get doc (row ++ [idx + 1])%list) as [ec|] eqn:Hc; simpl.
  - unfold text_of.
    destruct (innerText doc (row ++ [idx + 1])%list) as [text|]; [|done].
    by destruct (includes (toLowerCase text) (toLowerCase (value ef))).
  - by rewrite text_of_None.
Qed.

Lemma filters_loop row filters idx vis doc :
  forEach_var_from idx filters (check_filter row) vis doc
  = (scan doc row idx filters vis, doc).
Proof.
  revert idx vis; induction filters as [|f fs IH]; intros idx vis; simpl.
  - done.
  - unfold bind. rewrite check_filter_run.
    destruct (check_outcome _ _ _); [apply IH | done].
Qed.

Lemma filter_row_run filters row idx doc :
  is_Some (get doc row) →
  filter_row filters row idx doc
  = match scan doc row 0 filters true with
    | Normal b => (Normal tt, update row (set_display (shown b)) doc)
    | Throw e => (Throw e, doc)
    end.
Proof.
  intros [er Her]. unfold filter_row, bind, forEach_var.
  rewrite filters_loop. destruct (scan doc row 0 filters true); [|done].
  unfold write. by rewrite Her.
Qed.

(** The filters loop on a row depends on the values of the filters and
    on the texts of the cells of the row, and on nothing else. *)
Lemma scan_ext doc doc' row idx filters vis :
  (∀ q, value_of doc' q = value_of doc q) →
  (∀ i, text_of doc' (cell_of row i) = text_of doc (cell_of row i)) →
  scan doc' row idx filters vis = scan doc row idx filters vis.
Proof.
  intros Hv Ht. revert idx vis; induction filters as [|f fs IH];
    intros idx vis; simpl; [done|].
  rewrite Hv, Ht. destruct (check_outcome _ _ _); [apply IH | done].
Qed.

(** *** Documents up to display *)

Lemma same_but_display_refl doc : same_but_display doc doc.
Proof. by split. Qed.

Lemma same_but_display_sym d1 d2 :
  same_but_display d1 d2 → same_but_display d2 d1.
Proof. intros [Hp H]. split; [done|]. intros q. by rewrite H. Qed.

Lemma same_but_display_trans d1 d2 d3 :
  same_but_display d1 d2 → same_but_display d2 d3 → same_but_display d1 d3.
Proof.
  intros [Hp1 H1] [Hp2 H2]. split; [congruence|].
  intros q. by rewrite H2, H1.
Qed.

Lemma same_but_display_update doc p d :
  same_but_display doc (update p (set_display d) doc).
Proof.
  split; [apply paths_update|]. intros q. rewrite get_update.
  case_decide; [|done]. by destruct (get doc q).
Qed.

Lemma same_but_display_project {A} (prop : Props → A) doc doc' :
  (∀ e, prop (set_display "" e) = prop e) →
  same_but_display doc doc' →
  ∀ q, prop <$> get doc' q = prop <$> get doc q.
Proof.
  intros Hprop [_ Hq] q.
  transitivity (prop <$> (set_display "" <$> get doc' q)).
  { destruct (get doc' q); simpl; [by rewrite Hprop | done]. }
  rewrite Hq. destruct (get doc q); simpl; [by rewrite Hprop | done].
Qed.

Lemma same_but_display_valid doc doc' q :
  same_but_display doc doc' → is_Some (get doc' q) ↔ is_Some (get doc q).
Proof.
  intros Hsame. pose proof (same_but_display_project id_attr doc doc'
                              (λ _, eq_refl) Hsame q) as Hq.
  destruct (get doc' q), (get doc q); simpl in Hq; try done;
    split; intros [? ?]; done.
Qed.

Lemma same_but_display_select doc doc' base sel :
  same_but_display doc doc' → select doc' base sel = select doc base sel.
Proof.
  intros Hsame. apply select_ext; [apply Hsame|].
  intros c p _. by apply same_but_display_project.
Qed.

Lemma same_but_display_element_by_id doc doc' id :
  same_but_display doc doc' → element_by_id doc' id = element_by_id doc id.
Proof.
  intros Hsame. apply element_by_id_ext; [apply Hsame|].
  by apply same_but_display_project.
Qed.

Lemma same_but_display_value doc doc' q :
  same_but_display doc doc' → value_of doc' q = value_of doc q.
Proof. intros Hsame. by apply (same_but_display_project value). Qed.

Lemma cells_present_frame doc doc' filters row :
  same_but_display doc doc' →
  cells_present doc' filters row ↔ cells_present doc filters row.
Proof.
  intros Hsame. unfold cells_present.
  split; intros Hp i f v Hl Hval Hne.
  - apply (same_but_display_valid doc doc'); [done|].
    apply (Hp i f v); [done| |done].
    by rewrite (same_but_display_value doc doc').
  - apply (same_but_display_valid doc doc'); [done|].
    apply (Hp i f v); [done| |done].
    by rewrite <-(same_but_display_value doc doc').
Qed.

Lemma cell_missing_frame doc doc' filters row :
  same_but_display doc doc' →
  cell_missing doc' filters row → cell_missing doc filters row.
Proof.
  intros Hsame (i & f & v & Hl & Hv & Hne & Hcell).
  exists i, f, v. rewrite (same_but_display_value doc doc') in Hv by done.
  repeat split; try done.
  apply eq_None_not_Some. rewrite <-(same_but_display_valid doc doc') by done.
  by rewrite Hcell.
Qed.

(** A text that does not depend on the rendering reads as the text
    content, whatever displays have been written. *)
Lemma text_of_stable doc doc' p :
  same_but_display doc doc' →
  stable_text doc p →
  text_of doc' p = textContent <$> get doc p.
Proof.
  intros Hsame Hst. unfold text_of, innerText.
  pose proof (same_but_display_project textContent doc doc'
                (λ _, eq_refl) Hsame p) as Hc.
  pose proof (same_but_display_project renderedText doc doc'
                (λ _, eq_refl) Hsame p) as Hr.
  destruct (get doc p) as [e|] eqn:He, (get doc' p) as [e'|];
    simpl in Hc, Hr |- *; try done.
  injection Hc as Hc. injection Hr as Hr. f_equal.
  destruct (not_rendered doc' p); [done|]. rewrite Hr. by apply (Hst e).
Qed.


Lemma row_passes_stable doc doc' filters row :
  same_but_display doc doc' →
  (∀ i, stable_text doc (cell_of row i)) →
  row_passes doc' filters row ↔ row_passes doc filters row.
Proof.
  intros Hsame Hst. unfold row_passes.
  assert (∀ i, text_of doc' (cell_of row i) = text_of doc (cell_of row i))
    as Ht.
  { intros i. rewrite (text_of_stable doc doc') by done.
    by rewrite (text_of_stable doc doc) by
      (done || apply same_but_display_refl). }
  split; intros Hp i f v Hl Hval Hne.
  - rewrite <-Ht. apply (Hp i f v); [done| |done].
    by rewrite (same_but_display_value doc doc').
  - rewrite Ht. apply (Hp i f v); [done| |done].
    by rewrite <-(same_but_display_value doc doc').
Qed.

End FilterLoops.

(** *** What the filters loop computes *)

Section Scan.

Variables (doc : Node) (row : path).

Lemma present_from_cons f fs idx ef :
  get doc f = Some ef →
  present_from doc (f :: fs) row idx ↔
  (value ef ≠ "" → is_Some (get doc (cell_of row idx))) ∧
  present_from doc fs row (S idx).
Proof.
  intros Hf. unfold present_from, value_of. split.
  - intros Hp. split.
    + intros Hne. rewrite <-(Nat.add_0_r idx).
      apply (Hp 0 f (value ef)); [done | by rewrite Hf | done].
    + intros i f' v Hl Hv Hne. rewrite Nat.add_succ_comm.
      by apply (Hp (S i) f' v).
  - intros [H0 HS] [|i] f' v Hl Hv Hne; simpl in Hl.
    + injection Hl as <-. rewrite Hf in Hv. injection Hv as <-.
      rewrite Nat.add_0_r. by apply H0.
    + rewrite <-Nat.add_succ_comm. by apply (HS i f' v).
Qed.

Lemma passes_from_cons f fs idx ef :
  get doc f = Some ef →
  passes_from doc (f :: fs) row idx ↔
  (value ef ≠ "" →
   ∃ text, text_of doc (cell_of row idx) = Some text ∧
           substring_of (toLowerCase (value ef)) (toLowerCase text)) ∧
  passes_from doc fs row (S idx).
Proof.
  intros Hf. unfold passes_from, value_of. split.
  - intros Hp. split.
    + intros Hne. rewrite <-(Nat.add_0_r idx).
      apply (Hp 0 f (value ef)); [done | by rewrite Hf | done].
    + intros i f' v Hl Hv Hne. rewrite Nat.add_succ_comm.
      by apply (Hp (S i) f' v).
  - intros [H0 HS] [|i] f' v Hl Hv Hne; simpl in Hl.
    + injection Hl as <-. rewrite Hf in Hv. injection Hv as <-.
      rewrite Nat.add_0_r. by apply H0.
    + rewrite <-Nat.add_succ_comm. by apply (HS i f' v).
Qed.

(** With the cells in place the loop returns, and [visible] ends [true]
    exactly when it started so and the row passes. *)
Lemma scan_normal filters idx vis :
  (∀ f, f ∈ filters → is_Some (get doc f)) →
  present_from doc filters row idx →
  ∃ b,
    scan doc row idx filters vis = Normal b ∧
    (b = true ↔ vis = true ∧ passes_from doc filters row idx).
Proof.
  revert idx vis; induction filters as [|f fs IH]; intros idx vis Hv Hp.
  - exists vis. split; [done|]. split; [|by intros [-> _]].
    intros ->. split; [done|]. intros i f v Hl. done.
  - destruct (Hv f) as [ef Hf]; [apply list_elem_of_here|].
    destruct (proj1 (present_from_cons f fs idx ef Hf) Hp) as [Hcell Hp'].
    clear Hp. rename Hp' into Hp.
    assert (∀ f', f' ∈ fs → is_Some (get doc f')) as Hv'.
    { intros f' Hf'. apply Hv. by apply list_elem_of_further. }
    simpl. unfold value_of at 1, check_outcome. rewrite Hf. simpl.
    setoid_rewrite (passes_from_cons f fs idx ef Hf).
    destruct (truthy (toLowerCase (value ef))) eqn:Ht;
      rewrite truthy_toLowerCase in Ht.
    + apply truthy_true in Ht.
      destruct (proj2 (text_of_is_Some doc (cell_of row idx)) (Hcell Ht))
        as [text Htext].
      rewrite Htext.
      destruct (IH (S idx)
                  (if negb (includes (toLowerCase text)
                                     (toLowerCase (value ef)))
                   then false else vis) Hv' Hp) as (b & Hscan & Hb).
      exists b. split; [done|]. rewrite Hb.
      destruct (includes (toLowerCase text)
                         (toLowerCase (value ef))) eqn:Hinc; simpl.
      * apply includes_spec in Hinc. split.
        -- intros [-> Hrest]. repeat split; [|done]. eauto.
        -- intros [-> [_ Hrest]]. done.
      * split; [by intros [? _]|]. intros [_ [Hhead _]].
        destruct (Hhead Ht) as (text' & [= <-] & Hsub).
        apply includes_spec in Hsub. congruence.
    + apply truthy_false in Ht.
      destruct (IH (S idx) vis Hv' Hp) as (b & Hscan & Hb).
      exists b. split; [done|]. rewrite Hb. intuition.
Qed.

(** A non-empty filter without its cell makes the loop throw. *)
Lemma scan_throw filters idx vis :
  (∃ i f v,
     filters !! i = Some f ∧ value_of doc f = Some v ∧ v ≠ "" ∧
     get doc (cell_of row (idx + i)) = None) →
  scan doc row idx filters vis = Throw TypeError.
Proof.
  revert idx vis; induction filters as [|f fs IH]; intros idx vis
    (i & f' & v & Hl & Hv & Hne & Hcell); [done|].
  simpl. destruct i as [|i]; simpl in Hl.
  - injection Hl as <-. rewrite Nat.add_0_r in Hcell.
    rewrite Hv, (text_of_None _ _ Hcell). simpl.
    rewrite truthy_toLowerCase.
    by apply truthy_true in Hne as ->.
  - destruct (check_outcome _ _ _) as [vis'|[]]; [|done].
    apply IH. exists i, f', v. by rewrite Nat.add_succ_comm.
Qed.

(** And, the filters being controls with a string value, the loop
    throws for no other reason. *)
Lemma scan_throw_inv filters idx vis e :
  (∀ f, f ∈ filters → is_Some (get doc f)) →
  scan doc row idx filters vis = Throw e →
  ∃ i f v,
    filters !! i = Some f ∧ value_of doc f = Some v ∧ v ≠ "" ∧
    get doc (cell_of row (idx + i)) = None.
Proof.
  revert idx vis; induction filters as [|f fs IH]; intros idx vis Hv Hs;
    [done|].
  destruct (Hv f) as [ef Hf]; [apply list_elem_of_here|].
  assert (∀ f', f' ∈ fs → is_Some (get doc f')) as Hv'.
  { intros f' Hf'. apply Hv. by apply list_elem_of_further. }
  assert (∀ vis', scan doc row (S idx) fs vis' = Throw e →
            ∃ i f0 v, (f :: fs) !! i = Some f0 ∧ value_of doc f0 = Some v ∧
                      v ≠ "" ∧ get doc (cell_of row (idx + i)) = None)
    as Hrec.
  { intros vis' Hs'. destruct (IH (S idx) vis' Hv' Hs')
      as (i & f0 & v & Hl & Hval & Hne & Hcell).
    exists (S i), f0, v. by rewrite <-Nat.add_succ_comm. }
  simpl in Hs. unfold value_of at 1, check_outcome in Hs.
  rewrite Hf in Hs. simpl in Hs.
  destruct (truthy (toLowerCase (value ef))) eqn:Ht; [|by eapply Hrec].
  rewrite truthy_toLowerCase in Ht. apply truthy_true in Ht.
  destruct (text_of doc (cell_of row idx)) as [text|] eqn:Htext.
  - by eapply Hrec.
  - exists 0, f, (value ef). rewrite Nat.add_0_r.
    unfold value_of. rewrite Hf. repeat split; try done.
    apply eq_None_not_Some. rewrite <-text_of_is_Some, Htext.
    by intros [? ?].
Qed.

End Scan.

(** *** What the rows loop computes *)

Section SweepLive.

Variable filters : list path.

Lemma rows_loop rows idx doc :
  (∀ r, r ∈ rows → is_Some (get doc r)) →
  forEach_from idx rows (filter_row filters) doc
  = sweep_live filters rows doc.
Proof.
  revert idx doc; induction rows as [|r rs IH]; intros idx doc Hv; simpl;
    [done|].
  unfold bind. rewrite filter_row_run by apply Hv, list_elem_of_here.
  destruct (scan doc r 0 filters true); [|done].
  apply IH. intros q Hq. apply is_Some_get_update, Hv.
  by apply list_elem_of_further.
Qed.

Lemma sweep_live_frame rows doc :
  same_but_display doc (sweep_live filters rows doc).2.
Proof.
  revert doc; induction rows as [|r rs IH]; intros doc; simpl.
  - apply same_but_display_refl.
  - destruct (scan doc r 0 filters true); simpl.
    + eapply same_but_display_trans; [apply same_but_display_update | apply IH].
    + apply same_but_display_refl.
Qed.

Lemma sweep_live_app l1 l2 doc :
  sweep_live filters (l1 ++ l2) doc
  = match sweep_live filters l1 doc with
    | (Normal _, doc1) => sweep_live filters l2 doc1
    | (Throw e, doc1) => (Throw e, doc1)
    end.
Proof.
  revert doc; induction l1 as [|r l1 IH]; intros doc; simpl; [done|].
  destruct (scan doc r 0 filters true); [apply IH | done].
Qed.

Lemma sweep_live_get_notin rows doc q :
  q ∉ rows → get (sweep_live filters rows doc).2 q = get doc q.
Proof.
  revert doc; induction rows as [|r rs IH]; intros doc Hq; simpl; [done|].
  apply not_elem_of_cons in Hq as [Hne Hq].
  destruct (scan doc r 0 filters true); simpl; [|done].
  rewrite IH by done. by apply get_update_ne.
Qed.

(** With the cells in place the loop returns. *)
Lemma sweep_live_normal doc0 rows doc :
  same_but_display doc0 doc →
  (∀ f, f ∈ filters → is_Some (get doc0 f)) →
  (∀ r, r ∈ rows → cells_present doc0 filters r) →
  (sweep_live filters rows doc).1 = Normal tt.
Proof.
  intros Hsame Hv. revert doc Hsame; induction rows as [|r rs IH];
    intros doc Hsame Hcells; simpl; [done|].
  destruct (scan_normal doc r filters 0 true) as (b & -> & _).
  - intros f Hf. apply (same_but_display_valid doc0 doc); [done|].
    by apply Hv.
  - apply (cells_present_frame doc0 doc); [done|].
    apply Hcells, list_elem_of_here.
  - apply IH.
    + eapply same_but_display_trans; [done | apply same_but_display_update].
    + intros q Hq. apply Hcells. by apply list_elem_of_further.
Qed.

(** A row that lacks the cell of a non-empty filter makes it throw. *)
Lemma sweep_live_throw doc0 rows doc r :
  same_but_display doc0 doc →
  r ∈ rows →
  cell_missing doc0 filters r →
  (sweep_live filters rows doc).1 = Throw TypeError.
Proof.
  intros Hsame Hr Hmiss. revert doc Hsame Hr;
    induction rows as [|r' rs IH]; intros doc Hsame Hr;
    [by apply elem_of_nil in Hr|].
  simpl. destruct (scan doc r' 0 filters true) as [b|[]] eqn:Hr'; [|done].
  apply elem_of_cons in Hr as [-> | Hr].
  - rewrite scan_throw in Hr'; [done|].
    apply (cell_missing_frame doc doc0); [|done].
    by apply same_but_display_sym.
  - apply IH; [|done].
    eapply same_but_display_trans; [done | apply same_but_display_update].
Qed.

Lemma sweep_live_throw_inv doc0 rows doc e :
  same_but_display doc0 doc →
  (∀ f, f ∈ filters → is_Some (get doc0 f)) →
  (sweep_live filters rows doc).1 = Throw e →
  ∃ r, r ∈ rows ∧ cell_missing doc0 filters r.
Proof.
  intros Hsame Hv. revert doc Hsame; induction rows as [|r rs IH];
    intros doc Hsame; simpl; [done|].
  destruct (scan doc r 0 filters true) as [b|e'] eqn:Hr; simpl.
  - intros (r' & Hin & Hmiss)%IH.
    + exists r'. split; [by apply list_elem_of_further | done].
    + eapply same_but_display_trans; [done | apply same_but_display_update].
  - intros _. exists r. split; [apply list_elem_of_here|].
    apply (cell_missing_frame doc0 doc); [done|].
    apply scan_throw_inv in Hr; [done|].
    intros f Hf. apply (same_but_display_valid doc0 doc); [done|].
    by apply Hv.
Qed.

(** The display of a row that is met once is the one written when the
    loop reached it. *)
Lemma sweep_live_middle pre row post doc b :
  row ∉ post →
  is_Some (get doc row) →
  (sweep_live filters pre doc).1 = Normal tt →
  scan (sweep_live filters pre doc).2 row 0 filters true = Normal b →
  display_of (sweep_live filters (pre ++ row :: post) doc).2 row
  = Some (shown b).
Proof.
  intros Hpost Hrow Hpre Hscan. rewrite sweep_live_app.
  pose proof (sweep_live_frame pre doc) as Hframe.
  destruct (sweep_live filters pre doc) as [c doc1]. simpl in *.
  subst c. simpl. rewrite Hscan. unfold display_of.
  rewrite sweep_live_get_notin, get_update_eq by done.
  assert (is_Some (get doc1 row)) as [er ->]; [|done].
  by apply (same_but_display_valid doc doc1).
Qed.

Lemma sweep_live_lookup rows doc k row b :
  NoDup rows →
  (∀ r, r ∈ rows → is_Some (get doc r)) →
  rows !! k = Some row →
  (sweep_live filters (take k rows) doc).1 = Normal tt →
  scan (sweep_live filters (take k rows) doc).2 row 0 filters true
    = Normal b →
  display_of (sweep_live filters rows doc).2 row = Some (shown b).
Proof.
  intros Hnodup Hv Hk Hpre Hscan.
  rewrite <-(take_drop_middle rows k row Hk) at 1.
  apply sweep_live_middle; [|by eapply Hv, list_elem_of_lookup_2|done|done].
  rewrite <-(take_drop_middle rows k row Hk) in Hnodup.
  apply NoDup_app in Hnodup as (_ & _ & Hnodup).
  by apply NoDup_cons in Hnodup as [? _].
Qed.


(** *** The loop that reads at the start *)




End SweepLive.

(** *** The call *)

Lemma filterTable_run doc tableId t :
  element_by_id doc tableId = Some t →
  filterTable tableId doc
  = sweep_live (select doc t sel_filter_input)
      (select doc t sel_tbody_tr) doc.
Proof.
  intros Ht. destruct (resolved_element _ _ _ Ht) as [et Het].
  unfold filterTable, bind, getElementById, querySelectorAll.
  rewrite Ht. cbv beta iota. rewrite Het. cbv beta iota. rewrite Het.
  apply rows_loop. intros r. apply select_valid.
Qed.

Lemma filterTable_unresolved doc tableId :
  element_by_id doc tableId = None →
  filterTable tableId doc = (Throw TypeError, doc).
Proof.
  intros Ht. unfold filterTable, bind, getElementById, querySelectorAll.
  by rewrite Ht.
Qed.

Lemma visit_sweep filters rows doc k :
  (∀ r, r ∈ rows → is_Some (get doc r)) →
  visit filters rows doc k = (sweep_live filters (take k rows) doc).2.
Proof.
  intros Hv. unfold visit, forEach. rewrite rows_loop; [done|].
  intros r Hr. apply Hv. by apply (subseteq_take k rows).
Qed.

(** When the cells the non-empty filters look at are there, the call
    returns and writes displays only. *)
Lemma filterTable_normal doc tableId t :
  element_by_id doc tableId = Some t →
  (∀ row, row ∈ select doc t sel_tbody_tr →
          cells_present doc (select doc t sel_filter_input) row) →
  ∃ doc',
    filterTable tableId doc = (Normal tt, doc') ∧
    same_but_display doc doc'.
Proof.
  intros Ht Hcells. rewrite (filterTable_run doc tableId t Ht).
  set (F := select doc t sel_filter_input) in *.
  set (R := select doc t sel_tbody_tr) in *.
  exists (sweep_live F R doc).2. split; [|apply sweep_live_frame].
  rewrite (surjective_pairing (sweep_live F R doc)). f_equal.
  apply (sweep_live_normal F doc); [apply same_but_display_refl| |done].
  intros f. apply select_valid.
Qed.

(** And every body row gets the display of a flag that is [true]
    exactly when the row passes in the document as the loop reached
    it, which differs from the initial one in the displays of the rows
    before it at most. *)
Lemma filterTable_rows doc tableId t :
  element_by_id doc tableId = Some t →
  (∀ row, row ∈ select doc t sel_tbody_tr →
          cells_present doc (select doc t sel_filter_input) row) →
  ∃ doc',
    filterTable tableId doc = (Normal tt, doc') ∧
    same_but_display doc doc' ∧
    ∀ k row,
      select doc t sel_tbody_tr !! k = Some row →
      let seen := visit (select doc t sel_filter_input)
                    (select doc t sel_tbody_tr) doc k in
      same_but_display doc seen ∧
      (∀ q, q ∉ take k (select doc t sel_tbody_tr) →
            get seen q = get doc q) ∧
      ∃ b, display_of doc' row = Some (shown b) ∧
           (b = true ↔
            row_passes seen (select doc t sel_filter_input) row).
Proof.
  intros Ht Hcells.
  destruct (filterTable_normal doc tableId t Ht Hcells)
    as (doc' & Hrun & Hsame).
  exists doc'. split; [done|]. split; [done|].
  rewrite (filterTable_run doc tableId t Ht) in Hrun.
  set (F := select doc t sel_filter_input) in *.
  set (R := select doc t sel_tbody_tr) in *.
  assert (∀ r, r ∈ R → is_Some (get doc r)) as Hvalid.
  { intros r. apply select_valid. }
  assert (∀ f, f ∈ F → is_Some (get doc f)) as HvalidF.
  { intros f. apply select_valid. }
  intros k row Hk. simpl. rewrite (visit_sweep F R doc k Hvalid).
  pose proof (sweep_live_frame F (take k R) doc) as Hseen.
  split; [done|]. split; [intros q Hq; by apply sweep_live_get_notin|].
  destruct (scan_normal (sweep_live F (take k R) doc).2 row F 0 true)
    as (b & Hb & Hiff).
  { intros f Hf. apply (same_but_display_valid doc _); [done|].
    by apply HvalidF. }
  { apply (cells_present_frame doc _); [done|].
    by eapply Hcells, list_elem_of_lookup_2. }
  exists b. split.
  - assert (doc' = (sweep_live F R doc).2) as -> by by rewrite Hrun.
    apply (sweep_live_lookup F R doc k row b); try done.
    + apply NoDup_select.
    + apply (sweep_live_normal F doc); [apply same_but_display_refl|done|].
      intros r Hr. apply Hcells. by apply (subseteq_take k R).
  - rewrite Hiff. split; [by intros [_ ?] | by split].
Qed.

(** A body row that lacks the cell of a non-empty filter makes the call
    throw: this is the one place where [filterTable] reads through a
    reference that may be [undefined]. *)
Lemma filterTable_missing_cell_throws doc tableId t row :
  element_by_id doc tableId = Some t →
  row ∈ select doc t sel_tbody_tr →
  cell_missing doc (select doc t sel_filter_input) row →
  (filterTable tableId doc).1 = Throw TypeError.
Proof.
  intros Ht Hrow Hmiss. rewrite (filterTable_run doc tableId t Ht).
  by apply (sweep_live_throw _ doc _ _ row (same_but_display_refl doc)).
Qed.

Lemma wide_enough_cells_present doc filters rows :
  forallb (wide_enough doc filters) rows = true →
  ∀ row, row ∈ rows → cells_present doc filters row.
Proof.
  intros Hall row Hrow i f v Hl _ _.
  rewrite forallb_forall in Hall.
  specialize (Hall row (proj1 (list_elem_of_In _ _) Hrow)).
  unfold wide_enough in Hall. rewrite forallb_forall in Hall.
  eapply bool_decide_eq_true, Hall, in_seq.
  apply lookup_lt_Some in Hl. lia.
Qed.

(** On a table whose cells have an [innerText] that does not depend on
    the rendering, the rows are judged on the text content of their
    cells, as the document was before the call. *)
Lemma filterTable_stable_rows doc tableId t :
  element_by_id doc tableId = Some t →
  (∀ row, row ∈ select doc t sel_tbody_tr →
          cells_present doc (select doc t sel_filter_input) row) →
  (∀ row i, row ∈ select doc t sel_tbody_tr →
            stable_text doc (cell_of row i)) →
  ∃ doc',
    filterTable tableId doc = (Normal tt, doc') ∧
    ∀ row, row ∈ select doc t sel_tbody_tr →
      display_of doc' row = Some "" ↔
      content_passes doc (select doc t sel_filter_input) row.
Proof.
  intros Ht Hcells Hstable.
  destruct (filterTable_rows doc tableId t Ht Hcells)
    as (doc' & Hrun & _ & Hrows).
  exists doc'. split; [done|]. intros row Hrow.
  pose proof Hrow as Hk. apply list_elem_of_lookup in Hk as [k Hk].
  destruct (Hrows k row Hk) as (Hseen & _ & b & -> & Hb).
  rewrite (row_passes_stable doc) in Hb; [|done|by intros i; apply Hstable].
  assert (row_passes doc (select doc t sel_filter_input) row ↔
          content_passes doc (select doc t sel_filter_input) row) as <-.
  { unfold row_passes, content_passes.
    assert (∀ i, text_of doc (cell_of row i)
                 = textContent <$> get doc (cell_of row i)) as Htext.
    { intros i. apply text_of_stable; [apply same_but_display_refl|].
      by apply Hstable. }
    split; intros Hp i f v Hl Hv Hne;
      destruct (Hp i f v Hl Hv Hne) as (text & Ht' & Hsub);
      exists text; (split; [|done]);
      [by rewrite <-Htext | by rewrite Htext]. }
  rewrite <-Hb. destruct b; simpl; split; done.
Qed.

(** C1, amended. Column Filter, on a table whose rows have the cells
    that the non-empty filters look at: the call returns and leaves the
    filters and the rows in place; afterwards the [k]-th body row has
    display [""] if and only if every filter input at a position [i]
    with a non-empty value has its lower-cased value inside the
    lower-cased [innerText] of the row's cell at index [i + 1],
    [innerText] being read in the document as the loop reaches the row:
    the initial one but for the displays, and those of the rows before
    it only. A row
    for which this fails has display ["none"]. A filter with an empty
    value asks nothing of its cell. *)
Theorem filterTable_visible_iff doc tableId t :
  element_by_id doc tableId = Some t →
  (∀ row, row ∈ select doc t sel_tbody_tr →
          cells_present doc (select doc t sel_filter_input) row) →
  ∃ doc',
    filterTable tableId doc = (Normal tt, doc') ∧
    select doc' t sel_tbody_tr = select doc t sel_tbody_tr ∧
    select doc' t sel_filter_input = select doc t sel_filter_input ∧
    ∀ k row,
      select doc t sel_tbody_tr !! k = Some row →
      let seen := visit (select doc t sel_filter_input)
                    (select doc t sel_tbody_tr) doc k in
      same_but_display doc seen ∧
      (∀ q, q ∉ take k (select doc t sel_tbody_tr) →
            get seen q = get doc q) ∧
      (display_of doc' row = Some "" ↔
       row_passes seen (select doc t sel_filter_input) row) ∧
      (¬ row_passes seen (select doc t sel_filter_input) row →
       display_of doc' row = Some "none").
Proof.
  intros Ht Hcells.
  destruct (filterTable_rows doc tableId t Ht Hcells)
    as (doc' & Hrun & Hsame & Hrows).
  exists doc'. split; [done|].
  rewrite !(same_but_display_select doc doc') by done.
  split; [done|]. split; [done|].
  intros k row Hk.
  destruct (Hrows k row Hk) as (Hsame' & Hseen & b & Hd & Hb).
  simpl. split; [done|]. split; [done|]. rewrite Hd, <-Hb.
  destruct b; simpl; repeat split; try done.
Qed.


(** C10. Column Filter reads the cell at index [i + 1] only for a filter
    [i] with a non-empty value: when every filter whose cell is missing
    in some body row has an empty value, the call returns without a
    [TypeError], however short the rows are; and when all the filter
    values are empty every body row ends with display [""]. *)
Theorem filterTable_short_rows doc tableId t :
  element_by_id doc tableId = Some t →
  (∀ row i f v,
     row ∈ select doc t sel_tbody_tr →
     select doc t sel_filter_input !! i = Some f →
     value_of doc f = Some v →
     get doc (cell_of row i) = None →
     v = "") →
  ∃ doc',
    filterTable tableId doc = (Normal tt, doc') ∧
    ((∀ f v, f ∈ select doc t sel_filter_input →
             value_of doc f = Some v → v = "") →
     ∀ row, row ∈ select doc t sel_tbody_tr →
            display_of doc' row = Some "").
Proof.
  intros Ht Hshort.
  destruct (filterTable_rows doc tableId t Ht)
    as (doc' & Hrun & _ & Hrows).
  { intros row Hrow i f v Hl Hv Hne.
    destruct (get doc (cell_of row i)) eqn:Hcell; [eauto|].
    destruct Hne. by apply (Hshort row i f v). }
  exists doc'. split; [done|].
  intros Hempty row Hrow.
  apply list_elem_of_lookup in Hrow as [k Hk].
  destruct (Hrows k row Hk) as (Hseen & _ & b & -> & Hb).
  assert (b = true) as ->; [|done].
  apply Hb. intros i f v Hl Hv Hne. destruct Hne.
  apply (Hempty f v); [by eapply list_elem_of_lookup_2|].
  by rewrite <-(same_but_display_value doc _ f Hseen).
Qed.
(** * Further properties of the helpers *)

(** ** More facts about writes *)

Lemma element_by_id_write_all f l doc id :
  (∀ e, id_attr (f e) = id_attr e) →
  element_by_id (write_all f l doc) id = element_by_id doc id.
Proof.
  intros H. revert doc; induction l as [|x l IH]; intros doc; [done|].
  unfold write_all in *. cbn [foldl]. by rewrite IH, element_by_id_update.
Qed.

(** Writing what is already there changes nothing. *)
Lemma write_all_fixed f l doc :
  (∀ q, q ∈ l → ∃ e, get doc q = Some e ∧ f e = e) →
  write_all f l doc = doc.
Proof.
  induction l as [|x l IH]; intros H; [done|].
  unfold write_all in *. cbn [foldl].
  destruct (H x) as (e & He & Hf); [apply list_elem_of_here|].
  rewrite (update_id _ _ _ _ He Hf). apply IH.
  intros q Hq. apply H. by apply list_elem_of_further.
Qed.

Lemma filter_all {A} (P : A → Prop) `{!∀ x, Decision (P x)} (l : list A) :
  (∀ x, x ∈ l → P x) → filter P l = l.
Proof.
  induction l as [|x l IH]; intros Hall; [done|].
  rewrite filter_cons_True by apply Hall, list_elem_of_here.
  f_equal. apply IH. intros y Hy. apply Hall. by apply list_elem_of_further.
Qed.

Lemma filter_none {A} (P : A → Prop) `{!∀ x, Decision (P x)} (l : list A) :
  (∀ x, x ∈ l → ¬ P x) → filter P l = [].
Proof.
  intros Hnone. apply elem_of_nil_inv. intros x [HP Hx]%list_elem_of_filter.
  by apply (Hnone x).
Qed.

(** The values read along a list of nodes are determined by the list. *)
Lemma values_unique {A} (obs obs' : path → option A) l vs vs' :
  (∀ q, q ∈ l → obs' q = obs q) →
  Forall2 (λ q v, obs q = Some v) l vs →
  Forall2 (λ q v, obs' q = Some v) l vs' →
  vs' = vs.
Proof.
  intros Hobs H. revert vs'; induction H as [|q v l vs Hq _ IH];
    intros vs' H'.
  - by apply Forall2_nil_inv_l in H'.
  - apply Forall2_cons_inv_l in H' as (v' & vs2 & Hq' & H' & ->).
    rewrite Hobs in Hq' by apply list_elem_of_here.
    f_equal; [congruence|]. apply IH; [|done].
    intros p Hp. apply Hobs. by apply list_elem_of_further.
Qed.

Lemma contains_add_other tok t cl :
  tok ≠ t → contains (add t cl) tok = contains cl tok.
Proof.
  intros Hne. unfold add. destruct (contains cl t); [done|].
  unfold contains. apply bool_decide_ext.
  rewrite elem_of_app, list_elem_of_singleton. intuition.
Qed.

Lemma contains_remove_other tok t cl :
  tok ≠ t → contains (remove t cl) tok = contains cl tok.
Proof.
  intros Hne. unfold contains, remove. apply bool_decide_ext.
  rewrite list_elem_of_filter. intuition.
Qed.

(** ** Select-all toggle, continued *)

Lemma toggleSelectAll_run doc checkbox tableId t ecb :
  get doc checkbox = Some ecb →
  element_by_id doc tableId = Some t →
  toggleSelectAll (Some checkbox) tableId doc
  = (Normal tt,
     write_all (set_checked (checked ecb))
       (select doc t sel_event_checkbox) doc).
Proof.
  intros Hcb Ht. destruct (resolved_element _ _ _ Ht) as [et Het].
  unfold toggleSelectAll, bind, read, getElementById, querySelectorAll.
  simpl. rewrite Hcb, Ht, Het. unfold forEach.
  apply forEach_write. intros q. apply select_valid.
Qed.

Lemma select_event_checkbox_write_checked b l doc t :
  select (write_all (set_checked b) l doc) t sel_event_checkbox
  = select doc t sel_event_checkbox.
Proof.
  apply select_write_all. by intros c e [-> | []%elem_of_nil]%elem_of_cons.
Qed.

(** X1. Select-All Toggle is idempotent: a second call right after the
    first changes nothing more, whether the source checkbox is one of
    the checkboxes of the table or not, and whether the call returns or
    throws. *)
Theorem toggleSelectAll_idempotent doc checkbox tableId :
  twice (toggleSelectAll checkbox tableId) doc
  = toggleSelectAll checkbox tableId doc.
Proof.
  unfold twice, bind.
  destruct (checkbox ≫= get doc) as [ecb|] eqn:Hread.
  2:{ unfold toggleSelectAll, bind, read. by rewrite Hread. }
  destruct checkbox as [cb|]; [simpl in Hread | done].
  destruct (element_by_id doc tableId) as [t|] eqn:Ht.
  2:{ unfold toggleSelectAll, bind, read, getElementById, querySelectorAll.
      simpl. by rewrite Hread, Ht. }
  rewrite (toggleSelectAll_run doc cb tableId t ecb Hread Ht).
  set (C := select doc t sel_event_checkbox).
  set (doc1 := write_all (set_checked (checked ecb)) C doc).
  assert (∃ ecb1, get doc1 cb = Some ecb1 ∧ checked ecb1 = checked ecb)
    as (ecb1 & Hread1 & Hsame).
  { unfold doc1. rewrite get_write_all by done. rewrite Hread.
    case_decide; simpl; eauto. }
  assert (element_by_id doc1 tableId = Some t) as Ht1.
  { unfold doc1. by rewrite element_by_id_write_all. }
  rewrite (toggleSelectAll_run doc1 cb tableId t ecb1 Hread1 Ht1).
  f_equal. unfold doc1 at 1 2. rewrite select_event_checkbox_write_checked.
  rewrite Hsame. apply write_all_fixed. intros q Hq.
  destruct (select_valid _ _ _ _ Hq) as [e He].
  exists (set_checked (checked ecb) e). split; [|done].
  unfold doc1. rewrite get_write_all by done.
  by rewrite decide_True, He.
Qed.

(** X2. Select-All Toggle writes [checked] and nothing else: after the
    call every element has the tag, id, classes, display, value and
    text it had, so neither the filter nor the visibility of a row is
    disturbed by selecting. *)
Theorem toggleSelectAll_writes_checked_only doc checkbox tableId q :
  let doc' := (toggleSelectAll checkbox tableId doc).2 in
  display_of doc' q = display_of doc q ∧
  value_of doc' q = value_of doc q ∧
  classes_of doc' q = classes_of doc q ∧
  text_of doc' q = text_of doc q ∧
  localName <$> get doc' q = localName <$> get doc q ∧
  id_attr <$> get doc' q = id_attr <$> get doc q.
Proof.
  destruct (checkbox ≫= get doc) as [ecb|] eqn:Hread.
  2:{ unfold toggleSelectAll, bind, read. by rewrite Hread. }
  destruct checkbox as [cb|]; [simpl in Hread | done].
  destruct (element_by_id doc tableId) as [t|] eqn:Ht.
  2:{ unfold toggleSelectAll, bind, read, getElementById, querySelectorAll.
      simpl. by rewrite Hread, Ht. }
  rewrite (toggleSelectAll_run doc cb tableId t ecb Hread Ht). simpl.
  rewrite text_of_write_all by done.
  unfold display_of, value_of, classes_of.
  rewrite get_write_all by done.
  case_decide; [|done]. by destruct (get doc q).
Qed.

(** X3. Select all, then collect: after Select-All Toggle with a checked
    source, Bulk-ID Collection writes the values of all the
    [input.event-checkbox] elements of the table, in document order;
    after Select-All Toggle with an unchecked source it writes the
    empty array. *)
Theorem toggleSelectAll_then_collect doc checkbox tableId hiddenInputId
    t h ecb :
  get doc checkbox = Some ecb →
  element_by_id doc tableId = Some t →
  element_by_id doc hiddenInputId = Some h →
  ∃ doc' ids,
    and_then (toggleSelectAll (Some checkbox) tableId)
             (collectBulkIds tableId hiddenInputId) doc
    = (Normal tt, doc') ∧
    value_of doc' h = Some (JSON.stringify ids) ∧
    (checked ecb = true →
     Forall2 (λ q v, value_of doc q = Some v)
       (select doc t sel_event_checkbox) ids) ∧
    (checked ecb = false → ids = []).
Proof.
  intros Hcb Ht Hh.
  set (C := select doc t sel_event_checkbox).
  set (doc1 := write_all (set_checked (checked ecb)) C doc).
  assert (element_by_id doc1 tableId = Some t) as Ht1.
  { unfold doc1. by rewrite element_by_id_write_all. }
  assert (element_by_id doc1 hiddenInputId = Some h) as Hh1.
  { unfold doc1. by rewrite element_by_id_write_all. }
  destruct (collectBulkIds_run doc1 _ _ _ _ Ht1 Hh1) as (ids & Hrun & Hids).
  destruct (resolved_element _ _ _ Hh1) as [eh Heh].
  assert (∀ q, q ∈ C → checked_of doc1 q = Some (checked ecb)) as Hchecked.
  { intros q Hq. unfold checked_of, doc1. rewrite get_write_all by done.
    rewrite decide_True by done.
    by destruct (select_valid _ _ _ _ Hq) as [e ->]. }
  assert (∀ q, value_of doc1 q = value_of doc q) as Hvalue.
  { intros q. unfold value_of, doc1. rewrite get_write_all by done.
    case_decide; [|done]. by destruct (get doc q). }
  assert (select doc1 t sel_event_checkbox = C) as HC.
  { apply select_event_checkbox_write_checked. }
  unfold checked_boxes in Hids. rewrite HC in Hids.
  exists (update h (set_value (JSON.stringify ids)) doc1), ids.
  split; [|split; [|split]].
  - unfold and_then, bind.
    by rewrite (toggleSelectAll_run doc checkbox tableId t ecb Hcb Ht).
  - unfold value_of. by rewrite get_update_eq, Heh.
  - intros Htrue. rewrite filter_all in Hids.
    + eapply Forall2_impl; [exact Hids|]. intros q v Hv.
      by rewrite <-Hvalue.
    + intros q Hq. by rewrite Hchecked, Htrue.
  - intros Hfalse. rewrite filter_none in Hids.
    + by apply Forall2_nil_inv_l in Hids.
    + intros q Hq. rewrite Hchecked, Hfalse by done. done.
Qed.

(** ** Section toggle, continued *)

Lemma toggleSection_run doc sectionId iconId s i es :
  element_by_id doc sectionId = Some s →
  element_by_id doc iconId = Some i →
  get doc s = Some es →
  toggleSection sectionId iconId doc
  = (Normal tt,
     update i (toggle_icon es)
       (update s (set_display (next_display es)) doc)).
Proof.
  intros Hs Hi Hes. destruct (resolved_element _ _ _ Hi) as [ei Hei].
  assert (is_Some (get (update s (set_display (next_display es)) doc) i))
    as [ei' Hei'] by by apply is_Some_get_update.
  unfold toggleSection, bind, getElementById, read, classList_add,
    classList_remove, write, toggle_icon, next_classes.
  unfold next_display in *.
  rewrite Hs, Hi. simpl. rewrite Hes.
  destruct (bool_decide (style_display es = "none"));
    rewrite Hes, Hei'; done.
Qed.

(** X4. Section Toggle with an icon id that does not resolve: the call
    throws a [TypeError], but only after the section has been toggled;
    the display of the section is already changed, and no other
    display and no tag, id, class, [checked] or value is. *)
Theorem toggleSection_missing_icon doc sectionId iconId s es :
  element_by_id doc sectionId = Some s →
  get doc s = Some es →
  element_by_id doc iconId = None →
  ∃ doc',
    toggleSection sectionId iconId doc = (Throw TypeError, doc') ∧
    display_of doc' s = Some (next_display es) ∧
    (∀ q, q ≠ s → display_of doc' q = display_of doc q) ∧
    ∀ q, localName <$> get doc' q = localName <$> get doc q ∧
         id_attr <$> get doc' q = id_attr <$> get doc q ∧
         classes_of doc' q = classes_of doc q ∧
         checked_of doc' q = checked_of doc q ∧
         value_of doc' q = value_of doc q.
Proof.
  intros Hs Hes Hi.
  exists (update s (set_display (next_display es)) doc).
  split; [|split; [|split]].
  - unfold toggleSection, bind, getElementById, read, classList_add,
      classList_remove, write, next_display.
    rewrite Hs, Hi. simpl. rewrite Hes.
    destruct (bool_decide (style_display es = "none")); by rewrite Hes.
  - unfold display_of. by rewrite get_update_eq, Hes.
  - intros q Hq. unfold display_of. by rewrite get_update_ne.
  - intros q. unfold classes_of, checked_of, value_of. rewrite get_update.
    case_decide; [|done]. by destruct (get doc q).
Qed.

(** X5. Section Toggle writes the display of the section and the
    ["open"] class of the icon, and nothing else: no other display and
    no other class list changes, the icon keeps or lacks every other
    class as before, and no tag, id, [checked] or value changes
    anywhere. *)
Theorem toggleSection_frame doc sectionId iconId s i :
  element_by_id doc sectionId = Some s →
  element_by_id doc iconId = Some i →
  ∃ doc',
    toggleSection sectionId iconId doc = (Normal tt, doc') ∧
    (∀ q, q ≠ s → display_of doc' q = display_of doc q) ∧
    (∀ q, q ≠ i → classes_of doc' q = classes_of doc q) ∧
    (∀ tok, tok ≠ "open" → has_class doc' i tok = has_class doc i tok) ∧
    (∀ q, localName <$> get doc' q = localName <$> get doc q ∧
          id_attr <$> get doc' q = id_attr <$> get doc q ∧
          checked_of doc' q = checked_of doc q ∧
          value_of doc' q = value_of doc q).
Proof.
  intros Hs Hi. destruct (resolved_element _ _ _ Hs) as [es Hes].
  rewrite (toggleSection_run doc sectionId iconId s i es Hs Hi Hes).
  eexists. split; [reflexivity|]. split; [|split; [|split]].
  - intros q Hq. unfold display_of. rewrite !get_update.
    rewrite (decide_False (P := s = q)) by done.
    case_decide; [|done]. by destruct (get doc q).
  - intros q Hq. unfold classes_of. rewrite !get_update.
    rewrite (decide_False (P := i = q)) by done.
    case_decide; [|done]. by destruct (get doc q).
  - intros tok Htok. unfold has_class. rewrite !get_update.
    rewrite decide_True by done.
    unfold toggle_icon, next_classes.
    case_decide; destruct (get doc i) as [ei|]; simpl; try done;
      destruct (bool_decide (style_display es = "none")); simpl;
      by rewrite ?contains_add_other, ?contains_remove_other.
  - intros q. unfold checked_of, value_of. rewrite !get_update.
    repeat case_decide; by destruct (get doc q).
Qed.

(** X6. From the second call on, Section Toggle is an exact two-cycle:
    after one call, two more calls bring back the very display of the
    section and the presence or absence of every class of the icon. *)
Theorem toggleSection_two_cycle doc sectionId iconId s i :
  element_by_id doc sectionId = Some s →
  element_by_id doc iconId = Some i →
  ∃ doc1 doc3,
    toggleSection sectionId iconId doc = (Normal tt, doc1) ∧
    twice (toggleSection sectionId iconId) doc1 = (Normal tt, doc3) ∧
    display_of doc3 s = display_of doc1 s ∧
    ∀ tok, has_class doc3 i tok = has_class doc1 i tok.
Proof.
  intros Hs Hi.
  destruct (resolved_element _ _ _ Hs) as [es Hes].
  destruct (resolved_element _ _ _ Hi) as [ei Hei].
  destruct (toggleSection_post doc sectionId iconId s i es ei Hs Hi Hes Hei)
    as (doc1 & es1 & ei1 & Hrun1 & Hs1 & Hi1 & Hes1 & Hd1 & Hei1 & Hc1).
  destruct (toggleSection_post doc1 sectionId iconId s i es1 ei1
              Hs1 Hi1 Hes1 Hei1)
    as (doc2 & es2 & ei2 & Hrun2 & Hs2 & Hi2 & Hes2 & Hd2 & Hei2 & Hc2).
  destruct (toggleSection_post doc2 sectionId iconId s i es2 ei2
              Hs2 Hi2 Hes2 Hei2)
    as (doc3 & es3 & ei3 & Hrun3 & _ & _ & Hes3 & Hd3 & Hei3 & Hc3).
  exists doc1, doc3. split; [done|]. split.
  { unfold twice, bind. by rewrite Hrun2. }
  unfold display_of, has_class. rewrite Hes3, Hes1, Hei3, Hei1. simpl.
  unfold next_display in Hd1, Hd2, Hd3.
  unfold next_classes in Hc1, Hc2, Hc3.
  destruct (bool_decide (style_display es = "none"));
    rewrite Hd1 in Hd2, Hc2; simpl in Hd2, Hc2;
    rewrite Hd2 in Hd3, Hc3; simpl in Hd3, Hc3;
    rewrite Hd3, Hd1, Hc3, Hc2; (split; [done|]);
    intros tok; destruct (decide (tok = "open")) as [->|Hne];
    rewrite ?Hc1;
    repeat (rewrite ?contains_add, ?contains_remove;
            first [rewrite contains_add_other by done
                  |rewrite contains_remove_other by done]);
    rewrite ?contains_add, ?contains_remove; done.
Qed.

(** ** Bulk-id collection, continued *)

(** X7. Bulk-ID Collection writes the value of the hidden input and
    nothing else: every other element is as it was, and no [checked],
    display or class changes anywhere, so collecting does not clear the
    selection. *)
Theorem collectBulkIds_frame doc tableId hiddenInputId t h :
  element_by_id doc tableId = Some t →
  element_by_id doc hiddenInputId = Some h →
  ∃ doc',
    collectBulkIds tableId hiddenInputId doc = (Normal tt, doc') ∧
    (∀ q, q ≠ h → get doc' q = get doc q) ∧
    (∀ q, checked_of doc' q = checked_of doc q ∧
          display_of doc' q = display_of doc q ∧
          classes_of doc' q = classes_of doc q) ∧
    checked_boxes doc' t = checked_boxes doc t.
Proof.
  intros Ht Hh.
  destruct (collectBulkIds_run _ _ _ _ _ Ht Hh) as (ids & Hrun & _).
  eexists. split; [exact Hrun|]. split; [|split].
  - intros q Hq. by apply get_update_ne.
  - intros q. unfold checked_of, display_of, classes_of. rewrite get_update.
    case_decide; by destruct (get doc q).
  - unfold checked_boxes. rewrite select_update.
    2:{ by intros c e [-> | []%elem_of_nil]%elem_of_cons. }
    apply list_filter_iff. intros q. unfold checked_of. rewrite get_update.
    case_decide; by destruct (get doc q).
Qed.

(** X8. Bulk-ID Collection is idempotent when the hidden input is not
    itself one of the checked checkboxes of the table: a second call
    writes the same payload again and leaves the document as the first
    call left it. *)
Theorem collectBulkIds_idempotent doc tableId hiddenInputId t h :
  element_by_id doc tableId = Some t →
  element_by_id doc hiddenInputId = Some h →
  h ∉ checked_boxes doc t →
  twice (collectBulkIds tableId hiddenInputId) doc
  = collectBulkIds tableId hiddenInputId doc.
Proof.
  intros Ht Hh Hnot.
  destruct (collectBulkIds_run _ _ _ _ _ Ht Hh) as (ids & Hrun & Hids).
  destruct (resolved_element _ _ _ Hh) as [eh Heh].
  set (doc1 := update h (set_value (JSON.stringify ids)) doc) in *.
  assert (element_by_id doc1 tableId = Some t) as Ht1.
  { unfold doc1. by rewrite element_by_id_update. }
  assert (element_by_id doc1 hiddenInputId = Some h) as Hh1.
  { unfold doc1. by rewrite element_by_id_update. }
  destruct (collectBulkIds_run _ _ _ _ _ Ht1 Hh1) as (ids1 & Hrun1 & Hids1).
  assert (checked_boxes doc1 t = checked_boxes doc t) as Hboxes.
  { unfold checked_boxes, doc1. rewrite select_update.
    2:{ by intros c e [-> | []%elem_of_nil]%elem_of_cons. }
    apply list_filter_iff. intros q. unfold checked_of. rewrite get_update.
    case_decide; by destruct (get doc q). }
  rewrite Hboxes in Hids1.
  assert (ids1 = ids) as ->.
  { eapply values_unique; [|exact Hids|exact Hids1].
    intros q Hq. unfold value_of, doc1. rewrite get_update_ne; [done|].
    by intros <-. }
  unfold twice, bind. rewrite Hrun, Hrun1. f_equal.
  eapply update_id.
  - unfold doc1. by rewrite get_update_eq, Heh.
  - done.
Qed.

(** ** Ids that do not resolve *)

(** X9. An id that does not resolve makes every helper that looks it up
    throw a [TypeError] before it has written anything: the table id of
    the three table helpers, the section id of Section Toggle, and the
    hidden-input id of Bulk-ID Collection, whose payload is computed
    but not stored. *)
Theorem unresolved_id_throws doc id :
  element_by_id doc id = None →
  ∀ checkbox other,
    toggleSelectAll checkbox id doc = (Throw TypeError, doc) ∧
    toggleSection id other doc = (Throw TypeError, doc) ∧
    filterTable id doc = (Throw TypeError, doc) ∧
    collectBulkIds id other doc = (Throw TypeError, doc) ∧
    collectBulkIds other id doc = (Throw TypeError, doc).
Proof.
  intros Hid checkbox other. repeat split.
  - unfold toggleSelectAll, bind, read, getElementById, querySelectorAll.
    destruct (checkbox ≫= get doc); [|done]. by rewrite Hid.
  - unfold toggleSection, bind, read, getElementById. by rewrite Hid.
  - by apply filterTable_unresolved.
  - unfold collectBulkIds, bind, getElementById, querySelectorAll.
    by rewrite Hid.
  - unfold collectBulkIds, bind, getElementById, querySelectorAll, write.
    destruct (element_by_id doc other) as [t|]; [|done].
    destruct (get doc t) as [et|] eqn:Het; [|done].
    destruct (map_list_read value
                (select doc t sel_event_checkbox_checked) doc)
      as (ids & -> & _).
    { intros q. apply select_valid. }
    by rewrite Hid.
Qed.
(** ** Column filter, continued *)

(** What the rows loop leaves on a row it wrote: the verdict of the
    filters on the row, read in the document as the loop reached it. *)
Lemma sweep_live_rows filters rows doc k row :
  NoDup rows →
  (∀ r, r ∈ rows → is_Some (get doc r)) →
  (∀ f, f ∈ filters → is_Some (get doc f)) →
  (∀ r, r ∈ rows → cells_present doc filters r) →
  rows !! k = Some row →
  ∃ b,
    display_of (sweep_live filters rows doc).2 row = Some (shown b) ∧
    (b = true ↔
     row_passes (sweep_live filters (take k rows) doc).2 filters row).
Proof.
  intros Hnd Hvalid HvalidF Hcells Hk.
  pose proof (sweep_live_frame filters (take k rows) doc) as Hseen.
  destruct (scan_normal (sweep_live filters (take k rows) doc).2 row
              filters 0 true) as (b & Hb & Hiff).
  { intros f Hf. apply (same_but_display_valid doc _); [done|].
    by apply HvalidF. }
  { apply (cells_present_frame doc _); [done|].
    by eapply Hcells, list_elem_of_lookup_2. }
  exists b. split.
  - apply (sweep_live_lookup filters rows doc k row b); try done.
    apply (sweep_live_normal filters doc);
      [apply same_but_display_refl | done |].
    intros r Hr. apply Hcells. by apply (subseteq_take k rows).
  - rewrite Hiff. split; [by intros [_ ?] | by split].
Qed.

(** X10. With a table that resolves, and with filter inputs that are
    controls with a string value, as the markup has them, Column Filter
    throws a [TypeError] exactly when some body row lacks the cell of a
    filter whose value is not empty. *)
Theorem filterTable_throws_iff doc tableId t :
  element_by_id doc tableId = Some t →
  (filterTable tableId doc).1 = Throw TypeError ↔
  ∃ row,
    row ∈ select doc t sel_tbody_tr ∧
    cell_missing doc (select doc t sel_filter_input) row.
Proof.
  intros Ht. split.
  - rewrite (filterTable_run doc tableId t Ht).
    apply (sweep_live_throw_inv _ doc); [apply same_but_display_refl|].
    intros f. apply select_valid.
  - intros (row & Hrow & Hmiss).
    by apply (filterTable_missing_cell_throws doc tableId t row).
Qed.

(** X11. When Column Filter throws at a body row, the rows before it in
    document order have already been filtered, each shown or hidden as
    it passed or not when the loop reached it; no other display has
    changed, those of the rows after it included, and no tag, id,
    class, [checked] or value has: the table is left half filtered. *)
Theorem filterTable_partial_on_throw doc tableId t pre r post :
  element_by_id doc tableId = Some t →
  select doc t sel_tbody_tr = (pre ++ r :: post)%list →
  (∀ q, q ∈ pre →
        cells_present doc (select doc t sel_filter_input) q) →
  cell_missing doc (select doc t sel_filter_input) r →
  ∃ doc',
    filterTable tableId doc = (Throw TypeError, doc') ∧
    (∀ k q, pre !! k = Some q →
       ∃ b, display_of doc' q = Some (shown b) ∧
            (b = true ↔
             row_passes
               (visit (select doc t sel_filter_input)
                      (select doc t sel_tbody_tr) doc k)
               (select doc t sel_filter_input) q)) ∧
    (∀ q, q ∉ pre → display_of doc' q = display_of doc q) ∧
    (∀ q, localName <$> get doc' q = localName <$> get doc q ∧
          id_attr <$> get doc' q = id_attr <$> get doc q ∧
          classes_of doc' q = classes_of doc q ∧
          checked_of doc' q = checked_of doc q ∧
          value_of doc' q = value_of doc q).
Proof.
  intros Ht Hrows Hpre Hmiss.
  rewrite (filterTable_run doc tableId t Ht).
  pose proof (NoDup_select doc t sel_tbody_tr) as Hnd.
  pose proof (select_valid doc t sel_tbody_tr) as Hvalid.
  pose proof (select_valid doc t sel_filter_input) as HvalidF.
  assert (∀ k, visit (select doc t sel_filter_input)
                 (select doc t sel_tbody_tr) doc k
               = (sweep_live (select doc t sel_filter_input)
                    (take k (select doc t sel_tbody_tr)) doc).2) as Hvisit.
  { intros k. by apply visit_sweep. }
  set (F := select doc t sel_filter_input) in *.
  rewrite Hrows in Hnd, Hvalid, Hvisit |- *.
  apply NoDup_app in Hnd as (Hndpre & _ & _).
  assert (∀ q, q ∈ pre → is_Some (get doc q)) as Hvalidpre.
  { intros q Hq. apply Hvalid, elem_of_app. by left. }
  pose proof (sweep_live_frame F pre doc) as Hframe.
  pose proof (sweep_live_normal F doc pre doc (same_but_display_refl doc)
                HvalidF Hpre) as Hnormal.
  rewrite sweep_live_app.
  destruct (sweep_live F pre doc) as [c doc1] eqn:Hsweep.
  simpl in Hnormal, Hframe. rewrite Hnormal. simpl.
  rewrite (scan_throw doc1 r F 0 true).
  2:{ destruct Hmiss as (i & f & v & Hl & Hv & Hne & Hcell).
      exists i, f, v. split; [done|]. split.
      { by rewrite (same_but_display_value doc doc1). }
      split; [done|]. simpl.
      destruct (get doc1 (cell_of r i)) eqn:Hc; [|done].
      assert (is_Some (get doc (cell_of r i))) as [? Hsome].
      { apply (same_but_display_valid doc doc1); [done|]. by rewrite Hc. }
      by rewrite Hcell in Hsome. }
  exists doc1. split; [done|].
  assert (doc1 = (sweep_live F pre doc).2) as Hdoc1 by by rewrite Hsweep.
  split; [|split].
  - intros k q Hk. rewrite Hvisit.
    rewrite take_app_le by (apply lookup_lt_Some in Hk; lia).
    rewrite Hdoc1. by apply sweep_live_rows.
  - intros q Hq. unfold display_of. rewrite Hdoc1.
    by rewrite sweep_live_get_notin.
  - intros q. unfold classes_of, checked_of, value_of.
    repeat split; by apply same_but_display_project.
Qed.

(** X12. Column Filter writes displays of body rows and nothing else,
    whether it returns or throws: every element keeps its tag, id,
    classes, [checked] and value, and an element keeps its display
    unless it is a body row of the table. *)
Theorem filterTable_frame doc tableId q :
  let doc' := (filterTable tableId doc).2 in
  checked_of doc' q = checked_of doc q ∧
  value_of doc' q = value_of doc q ∧
  classes_of doc' q = classes_of doc q ∧
  localName <$> get doc' q = localName <$> get doc q ∧
  id_attr <$> get doc' q = id_attr <$> get doc q ∧
  (display_of doc' q = display_of doc q ∨
   ∃ t, element_by_id doc tableId = Some t ∧
        q ∈ select doc t sel_tbody_tr).
Proof.
  destruct (element_by_id doc tableId) as [t|] eqn:Ht.
  2:{ rewrite filterTable_unresolved by done. simpl.
      repeat split; try done. by left. }
  rewrite (filterTable_run doc tableId t Ht).
  set (F := select doc t sel_filter_input).
  set (R := select doc t sel_tbody_tr).
  pose proof (sweep_live_frame F R doc) as Hframe. simpl.
  unfold checked_of, value_of, classes_of.
  do 5 (split; [by apply same_but_display_project|]).
  destruct (decide (q ∈ R)) as [Hin | Hnotin]; [right; eauto | left].
  unfold display_of. by rewrite sweep_live_get_notin.
Qed.

(** X13. On a table whose cells have an [innerText] that does not
    depend on the rendering, what Column Filter leaves on the rows does
    not depend on what their displays were: from two documents that
    differ only in displays, for instance by the filters applied
    before, every body row ends with the same display. *)
Theorem filterTable_ignores_prior_display doc doc2 tableId t :
  same_but_display doc doc2 →
  element_by_id doc tableId = Some t →
  (∀ row, row ∈ select doc t sel_tbody_tr →
          cells_present doc (select doc t sel_filter_input) row) →
  (∀ row i, row ∈ select doc t sel_tbody_tr →
            stable_text doc (cell_of row i)) →
  ∃ doc' doc2',
    filterTable tableId doc = (Normal tt, doc') ∧
    filterTable tableId doc2 = (Normal tt, doc2') ∧
    ∀ row, row ∈ select doc t sel_tbody_tr →
           display_of doc2' row = display_of doc' row.
Proof.
  intros Hsame Ht Hcells Hstable.
  destruct (filterTable_rows doc tableId t Ht Hcells)
    as (doc' & Hrun & _ & Hrows).
  assert (element_by_id doc2 tableId = Some t) as Ht2.
  { by rewrite (same_but_display_element_by_id doc doc2). }
  destruct (filterTable_rows doc2 tableId t Ht2)
    as (doc2' & Hrun2 & _ & Hrows2).
  { intros row. rewrite !(same_but_display_select doc doc2) by done.
    intros Hrow. apply (cells_present_frame doc doc2); [done|].
    by apply Hcells. }
  exists doc', doc2'. split; [done|]. split; [done|].
  intros row Hrow.
  pose proof Hrow as Hk. apply list_elem_of_lookup in Hk as [k Hk].
  destruct (Hrows k row Hk) as (Hseen & _ & b & -> & Hb).
  destruct (Hrows2 k row) as (Hseen2 & _ & b2 & -> & Hb2).
  { by rewrite (same_but_display_select doc doc2). }
  rewrite !(same_but_display_select doc doc2) in Hseen2, Hb2 by done.
  rewrite (row_passes_stable doc) in Hb; [|done|by intros i; apply Hstable].
  rewrite (row_passes_stable doc) in Hb2;
    [|by apply (same_but_display_trans doc doc2)
     |by intros i; apply Hstable].
  do 2 f_equal. destruct b, b2; try done.
  - assert (false = true) by (apply Hb2, Hb; done). done.
  - assert (false = true) by (apply Hb, Hb2; done). done.
Qed.

(** X14. Filtering does not change what is collected: Bulk-ID Collection
    after Column Filter writes the payload it would have written
    without it, the ids of checked rows that the filter hid
    included. *)
Theorem filterTable_then_collect doc tableId hiddenInputId t h :
  element_by_id doc tableId = Some t →
  element_by_id doc hiddenInputId = Some h →
  (∀ row, row ∈ select doc t sel_tbody_tr →
          cells_present doc (select doc t sel_filter_input) row) →
  ∃ doc2 doc3,
    and_then (filterTable tableId) (collectBulkIds tableId hiddenInputId) doc
    = (Normal tt, doc2) ∧
    collectBulkIds tableId hiddenInputId doc = (Normal tt, doc3) ∧
    value_of doc2 h = value_of doc3 h.
Proof.
  intros Ht Hh Hcells.
  destruct (filterTable_normal doc tableId t Ht Hcells)
    as (doc1 & Hrun1 & Hsame).
  assert (element_by_id doc1 tableId = Some t) as Ht1.
  { by rewrite (same_but_display_element_by_id doc doc1). }
  assert (element_by_id doc1 hiddenInputId = Some h) as Hh1.
  { by rewrite (same_but_display_element_by_id doc doc1). }
  destruct (collectBulkIds_run _ _ _ _ _ Ht Hh) as (ids & Hrun & Hids).
  destruct (collectBulkIds_run _ _ _ _ _ Ht1 Hh1) as (ids1 & Hrun2 & Hids1).
  destruct (resolved_element _ _ _ Hh) as [eh Heh].
  destruct (resolved_element _ _ _ Hh1) as [eh1 Heh1].
  assert (checked_boxes doc1 t = checked_boxes doc t) as Hboxes.
  { unfold checked_boxes.
    rewrite (same_but_display_select doc doc1) by done.
    apply list_filter_iff. intros q. unfold checked_of.
    by rewrite (same_but_display_project checked doc doc1). }
  rewrite Hboxes in Hids1.
  assert (ids1 = ids) as ->.
  { eapply values_unique; [|exact Hids|exact Hids1].
    intros q _. unfold value_of.
    by apply (same_but_display_project value doc doc1). }
  eexists _, _. split; [|split; [exact Hrun|]].
  - unfold and_then, bind. rewrite Hrun1. exact Hrun2.
  - unfold value_of. by rewrite !get_update_eq, Heh, Heh1.
Qed.

(** *** Letter case *)

Lemma check_outcome_lower v v2 text text2 vis :
  toLowerCase <$> v2 = toLowerCase <$> v →
  toLowerCase <$> text2 = toLowerCase <$> text →
  check_outcome v2 text2 vis = check_outcome v text vis.
Proof.
  intros Hv Htext. destruct v as [v|], v2 as [v2|]; try done.
  injection Hv as Hv. unfold check_outcome. rewrite Hv.
  destruct (truthy (toLowerCase v)); [|done].
  destruct text as [text|], text2 as [text2|]; try done.
  injection Htext as Htext. by rewrite Htext.
Qed.

Section LetterCase.

Variables (doc doc2 : Node).
Hypothesis Hcase : same_up_to_case doc doc2.

Lemma case_project {A} (h : Props → A) q :
  (∀ e e', same_letters e e' → h e' = h e) →
  h <$> get doc2 q = h <$> get doc q.
Proof using Hcase.
  intros Hh. destruct Hcase as [_ H]. specialize (H q).
  destruct (get doc q) as [e|], (get doc2 q) as [e'|]; simpl; try done.
  f_equal. by apply Hh.
Qed.

Lemma case_valid q : is_Some (get doc2 q) ↔ is_Some (get doc q).
Proof using Hcase.
  destruct Hcase as [_ H]. specialize (H q).
  destruct (get doc q), (get doc2 q); try done;
    split; intros [? ?]; done.
Qed.

Lemma case_select base sel : select doc2 base sel = select doc base sel.
Proof using Hcase.
  apply select_ext; [apply Hcase|].
  intros c p _. apply case_project.
  intros e e' (Htag & _ & Hcl & _ & Hch & _).
  unfold matches_compound. by rewrite Htag, Hcl, Hch.
Qed.

Lemma case_element_by_id id : element_by_id doc2 id = element_by_id doc id.
Proof using Hcase.
  apply element_by_id_ext; [apply Hcase|].
  intros q. apply case_project. by intros e e' (_ & Hid & _).
Qed.

Lemma case_display q : display_of doc2 q = display_of doc q.
Proof using Hcase.
  apply case_project. by intros e e' (_ & _ & _ & Hd & _).
Qed.

Lemma case_value q :
  toLowerCase <$> value_of doc2 q = toLowerCase <$> value_of doc q.
Proof using Hcase.
  unfold value_of. rewrite <-!option_fmap_compose.
  apply case_project. by intros e e' (_ & _ & _ & _ & _ & Hv & _).
Qed.

Lemma case_text q :
  toLowerCase <$> text_of doc2 q = toLowerCase <$> text_of doc q.
Proof using Hcase.
  unfold text_of, innerText. rewrite <-!option_fmap_compose.
  rewrite (not_rendered_ext doc doc2) by apply case_display.
  rewrite (displays_ext doc doc2) by (apply Hcase || apply case_display).
  apply case_project.
  intros e e' (_ & _ & _ & _ & _ & _ & Htc & Hrt). simpl.
  by destruct (not_rendered doc q).
Qed.

Lemma scan_case row idx filters vis :
  scan doc2 row idx filters vis = scan doc row idx filters vis.
Proof using Hcase.
  revert idx vis; induction filters as [|f fs IH]; intros idx vis; simpl;
    [done|].
  rewrite (check_outcome_lower (value_of doc f) (value_of doc2 f)
             (text_of doc (cell_of row idx))
             (text_of doc2 (cell_of row idx)) vis (case_value f)
             (case_text (cell_of row idx))).
  destruct (check_outcome _ _ _); [apply IH | done].
Qed.

Lemma case_update p d :
  same_up_to_case (update p (set_display d) doc)
                  (update p (set_display d) doc2).
Proof using Hcase.
  destruct Hcase as [Hp H]. split; [by rewrite !paths_update|].
  intros q. specialize (H q). rewrite !get_update.
  case_decide; [|done].
  destruct (get doc q) as [e|], (get doc2 q) as [e'|]; simpl; try done.
  destruct H as (? & ? & ? & ? & ? & ? & ? & ?). by repeat split.
Qed.

End LetterCase.

(** The rows loop runs in lockstep on two documents that differ in
    letter case only. *)
Lemma sweep_live_case filters rows doc doc2 :
  same_up_to_case doc doc2 →
  (sweep_live filters rows doc2).1 = (sweep_live filters rows doc).1 ∧
  same_up_to_case (sweep_live filters rows doc).2
                  (sweep_live filters rows doc2).2.
Proof.
  revert doc doc2; induction rows as [|r rs IH]; intros doc doc2 Hcase;
    simpl; [done|].
  rewrite (scan_case doc doc2 Hcase).
  destruct (scan doc r 0 filters true) as [b|e]; [|done].
  by apply IH, case_update.
Qed.

(** X15. Column Filter is blind to letter case, in the filters and in
    the cells alike: on two documents that differ only in values and
    texts, and there in nothing that [toLowerCase] keeps apart, the two
    calls complete alike, and every element ends with the same
    display. *)
Theorem filterTable_case_insensitive doc doc2 tableId :
  same_up_to_case doc doc2 →
  (filterTable tableId doc2).1 = (filterTable tableId doc).1 ∧
  ∀ q, display_of (filterTable tableId doc2).2 q
       = display_of (filterTable tableId doc).2 q.
Proof.
  intros Hcase.
  pose proof (case_element_by_id doc doc2 Hcase tableId) as Hid.
  destruct (element_by_id doc tableId) as [t|] eqn:Ht.
  - rewrite (filterTable_run doc tableId t Ht).
    rewrite (filterTable_run doc2 tableId t Hid).
    rewrite !(case_select doc doc2 Hcase).
    destruct (sweep_live_case (select doc t sel_filter_input)
                (select doc t sel_tbody_tr) doc doc2 Hcase) as [Hc Hd].
    split; [done|]. intros q. by apply case_display.
  - rewrite !filterTable_unresolved by done. simpl.
    split; [done|]. intros q. by apply case_display.
Qed.

(** ** Selecting and filtering together *)

(** Two writes commute when what they write does. *)
Lemma update_comm p f q g n :
  (∀ e, f (g e) = g (f e)) →
  update p f (update q g n) = update q g (update p f n).
Proof.
  intros Hfg. revert q n; induction p as [|i p IH]; intros q [e cs].
  - destruct q as [|j q]; simpl; [by rewrite Hfg|].
    by destruct (cs !! j).
  - destruct q as [|j q]; simpl.
    { by destruct (cs !! i). }
    destruct (decide (i = j)) as [<-|Hij].
    + destruct (cs !! i) as [c|] eqn:Hc; simpl; [|by rewrite Hc].
      rewrite !list_lookup_insert_eq by (by eapply lookup_lt_Some).
      by rewrite !list_insert_insert_eq, IH.
    + destruct (cs !! i) as [ci|] eqn:Hi, (cs !! j) as [cj|] eqn:Hj; simpl;
        rewrite ?list_lookup_insert_ne by done; rewrite ?Hi, ?Hj; try done.
      by rewrite list_insert_insert_ne.
Qed.

Lemma update_write_all_comm r g f l doc :
  (∀ e, f (g e) = g (f e)) →
  update r g (write_all f l doc) = write_all f l (update r g doc).
Proof.
  intros Hfg. revert doc; induction l as [|x l IH]; intros doc; [done|].
  unfold write_all in *. cbn [foldl]. rewrite IH. f_equal.
  symmetry. by apply update_comm.
Qed.

(** The rows loop does not see a write that leaves displays, values and
    texts alone, and its own writes pass through it. *)
Lemma sweep_live_write_all filters rows f l doc :
  (∀ e, f (f e) = f e) →
  (∀ d e, f (set_display d e) = set_display d (f e)) →
  (∀ e, style_display (f e) = style_display e) →
  (∀ e, value (f e) = value e) →
  (∀ e, textContent (f e) = textContent e) →
  (∀ e, renderedText (f e) = renderedText e) →
  sweep_live filters rows (write_all f l doc)
  = ((sweep_live filters rows doc).1,
     write_all f l (sweep_live filters rows doc).2).
Proof.
  intros Hidem Hf Hd Hv Htc Hrt.
  revert doc; induction rows as [|r rs IH]; intros doc; simpl; [done|].
  rewrite (scan_ext doc (write_all f l doc)).
  2:{ intros q. by apply value_of_write_all. }
  2:{ intros i. by apply text_of_write_all. }
  destruct (scan doc r 0 filters true); [|done].
  rewrite update_write_all_comm by done. apply IH.
Qed.

(** X16. Selecting and filtering are independent: when the filter
    returns, Select-All Toggle followed by Column Filter leaves exactly
    the document that Column Filter followed by Select-All Toggle
    leaves. *)
Theorem select_and_filter_commute doc checkbox tableId t ecb :
  get doc checkbox = Some ecb →
  element_by_id doc tableId = Some t →
  (∀ row, row ∈ select doc t sel_tbody_tr →
          cells_present doc (select doc t sel_filter_input) row) →
  ∃ doc',
    and_then (toggleSelectAll (Some checkbox) tableId)
             (filterTable tableId) doc = (Normal tt, doc') ∧
    and_then (filterTable tableId)
             (toggleSelectAll (Some checkbox) tableId) doc
    = (Normal tt, doc').
Proof.
  intros Hcb Ht Hcells.
  destruct (filterTable_normal doc tableId t Ht Hcells)
    as (d' & Hrun & Hsame).
  pose proof Hrun as Hsw.
  rewrite (filterTable_run doc tableId t Ht) in Hsw.
  set (F := select doc t sel_filter_input) in *.
  set (R := select doc t sel_tbody_tr) in *.
  set (C := select doc t sel_event_checkbox).
  set (b := checked ecb).
  exists (write_all (set_checked b) C d'). split.
  - unfold and_then, bind.
    rewrite (toggleSelectAll_run doc checkbox tableId t ecb Hcb Ht).
    fold C b. set (doc1 := write_all (set_checked b) C doc).
    assert (element_by_id doc1 tableId = Some t) as Ht1.
    { unfold doc1. by rewrite element_by_id_write_all. }
    rewrite (filterTable_run doc1 tableId t Ht1).
    assert (select doc1 t sel_filter_input = F) as ->.
    { apply select_write_all.
      by intros c e [-> | []%elem_of_nil]%elem_of_cons. }
    assert (select doc1 t sel_tbody_tr = R) as ->.
    { apply select_write_all. intros c e Hc.
      apply elem_of_cons in Hc as [-> | Hc]; [done|].
      by apply elem_of_cons in Hc as [-> | []%elem_of_nil]. }
    unfold doc1. rewrite sweep_live_write_all by done. by rewrite Hsw.
  - unfold and_then, bind. rewrite Hrun.
    assert (∃ ecb', get d' checkbox = Some ecb' ∧ checked ecb' = b)
      as (ecb' & Hcb' & Hb').
    { pose proof (same_but_display_project checked doc d'
                    (λ _, eq_refl) Hsame checkbox) as Hq.
      rewrite Hcb in Hq. destruct (get d' checkbox) as [e'|]; [|done].
      injection Hq as Hq. eauto. }
    assert (element_by_id d' tableId = Some t) as Ht'.
    { by rewrite (same_but_display_element_by_id doc d'). }
    rewrite (toggleSelectAll_run d' checkbox tableId t ecb' Hcb' Ht').
    by rewrite Hb', (same_but_display_select doc d').
Qed.

End Host.

(** * Sample runs

    The theorems above, applied to the sample pages in a host whose
    [toLowerCase] is [ascii_host]. *)

Lemma toggleSection_transition_witness :
  ∃ doc',
    toggleSection "details" "details-icon" (Sample.page "none" [] [] [])
      = (Normal tt, doc') ∧
    display_of doc' Sample.section_path = Some "block" ∧
    has_class doc' Sample.icon_path "open" = Some true.
Proof.
  destruct (toggleSection_transition (Sample.page "none" [] [] [])
              "details" "details-icon" Sample.section_path Sample.icon_path
              _ _ eq_refl eq_refl eq_refl eq_refl)
    as (doc' & Hrun & Hnone & _).
  exists doc'. split; [exact Hrun|].
  destruct (Hnone eq_refl) as (Hd & _ & Ho). by split.
Defined.

Lemma toggleSection_unset_collapses_witness :
  ∃ doc',
    toggleSection "details" "details-icon" (Sample.page "" ["open"] [] [])
      = (Normal tt, doc') ∧
    display_of doc' Sample.section_path = Some "none" ∧
    has_class doc' Sample.icon_path "open" = Some false.
Proof.
  destruct (toggleSection_unset_collapses (Sample.page "" ["open"] [] [])
              "details" "details-icon" Sample.section_path Sample.icon_path
              _ _ eq_refl eq_refl eq_refl eq_refl eq_refl)
    as (doc' & Hrun & Hd & _ & _ & Ho).
  exists doc'. by repeat split.
Defined.

Lemma toggleSection_consistent_witness :
  ∃ doc',
    toggleSection "details" "details-icon" (Sample.page "block" [] [] [])
      = (Normal tt, doc') ∧
    ((display_of doc' Sample.section_path = Some "block" ∧
      has_class doc' Sample.icon_path "open" = Some true) ∨
     (display_of doc' Sample.section_path = Some "none" ∧
      has_class doc' Sample.icon_path "open" = Some false)).
Proof.
  exact (toggleSection_consistent (Sample.page "block" [] [] [])
           "details" "details-icon" Sample.section_path Sample.icon_path
           eq_refl eq_refl).
Defined.

(** C3, as stated, fails on a page that sets no inline display and whose
    icon is closed: the first call hides the section, the second shows
    it and leaves ["open"] on the icon, which did not have it. *)
Lemma toggleSection_twice_counterexample :
  ¬ toggle_twice_restores (Sample.page "" [] [] []) "details" "details-icon".
Proof.
  intros (s & i & doc2 & Hs & Hi & Hrun & _ & Hopen).
  vm_compute in Hs, Hi, Hrun.
  injection Hs as <-. injection Hi as <-. injection Hrun as <-.
  vm_compute in Hopen. discriminate.
Qed.

Lemma toggleSection_twice_witness :
  ∃ doc2,
    twice (toggleSection "details" "details-icon")
      (Sample.page "none" [] [] []) = (Normal tt, doc2) ∧
    section_state doc2 Sample.section_path = Some HIDDEN ∧
    has_class doc2 Sample.icon_path "open" = Some false.
Proof.
  destruct (toggleSection_twice (Sample.page "none" [] [] [])
              "details" "details-icon" Sample.section_path Sample.icon_path
              _ _ eq_refl eq_refl eq_refl eq_refl)
    as (doc2 & Hrun & Hstate & Hopen & _).
  exists doc2. by repeat split.
Defined.

Lemma toggleSelectAll_sets_all_witness :
  ∃ doc',
    toggleSelectAll (Some Sample.select_all_path) "events"
      (Sample.names_page "") = (Normal tt, doc') ∧
    ∀ c, c ∈ select (Sample.names_page "") Sample.table_path
               sel_event_checkbox →
         checked_of doc' c = Some false.
Proof.
  destruct (toggleSelectAll_sets_all (Sample.names_page "")
              Sample.select_all_path "events" Sample.table_path
              _ eq_refl eq_refl)
    as (doc' & Hrun & _ & Hall & _).
  exists doc'. split; [exact Hrun | exact Hall].
Defined.

Lemma collectBulkIds_payload_witness :
  ∃ doc' ids,
    collectBulkIds "events" "bulk-ids" (Sample.names_page "")
      = (Normal tt, doc') ∧
    value_of doc' Sample.hidden_path = Some (JSON.stringify ids) ∧
    Forall2 (λ q v, value_of (Sample.names_page "") q = Some v)
      (checked_boxes (Sample.names_page "") Sample.table_path) ids.
Proof.
  destruct (collectBulkIds_payload (Sample.names_page "")
              "events" "bulk-ids" Sample.table_path Sample.hidden_path
              eq_refl eq_refl)
    as (doc' & ids & Hrun & Hv & Hids & _).
  exists doc', ids. by repeat split.
Defined.

Lemma collectBulkIds_none_checked_witness :
  ∃ doc',
    collectBulkIds "events" "bulk-ids"
      (Sample.page "" [] []
         [Sample.body_row "" "7" false ["Alice"];
          Sample.body_row "none" "3" false ["Bob"]])
      = (Normal tt, doc') ∧
    value_of doc' Sample.hidden_path = Some "[]".
Proof.
  apply (collectBulkIds_none_checked
           (Sample.page "" [] []
              [Sample.body_row "" "7" false ["Alice"];
               Sample.body_row "none" "3" false ["Bob"]])
           "events" "bulk-ids"
           Sample.table_path Sample.hidden_path eq_refl eq_refl).
  apply Forall_forall. vm_compute.
  repeat constructor; discriminate.
Defined.

Lemma filterTable_visible_iff_witness :
  ∃ doc',
    filterTable "events" (Sample.names_page "ali") = (Normal tt, doc') ∧
    ∀ k row,
      select (Sample.names_page "ali") Sample.table_path sel_tbody_tr !! k
        = Some row →
      display_of doc' row = Some "" ↔
      row_passes
        (visit (select (Sample.names_page "ali") Sample.table_path
                  sel_filter_input)
               (select (Sample.names_page "ali") Sample.table_path
                  sel_tbody_tr)
               (Sample.names_page "ali") k)
        (select (Sample.names_page "ali") Sample.table_path sel_filter_input)
        row.
Proof.
  destruct (filterTable_visible_iff (Sample.names_page "ali") "events"
              Sample.table_path eq_refl) as (doc' & Hrun & _ & _ & Hrows).
  { by apply wide_enough_cells_present. }
  exists doc'. split; [exact Hrun|].
  intros k row Hk. exact (proj1 (proj2 (proj2 (Hrows k row Hk)))).
Defined.

(** C1, as stated, fails on a displayed row whose cell holds two words
    separated by two spaces and rendered with one, under a filter that
    asks for the two spaces: the row is hidden, though the text content
    of the cell contains the filter value; and once the row is hidden
    the [innerText] of the cell contains it too. *)
Lemma filterTable_visible_iff_counterexample :
  ¬ visible_iff_content (Sample.spaced_page "o  b") "events" ∧
  ¬ visible_iff_text_after (Sample.spaced_page "o  b") "events".
Proof.
  split; intros (t & doc' & Ht & Hrun & Hrows);
    injection Ht as <-;
    (assert (doc' = (filterTable "events" (Sample.spaced_page "o  b")).2)
       as -> by by rewrite Hrun);
    specialize (Hrows (Sample.row_path 0) (list_elem_of_here _ _));
    (assert (Some "none" = Some "") as Habs; [|discriminate Habs]);
    apply Hrows; intros i f v Hl Hv Hne;
    (destruct i as [|i]; [|done]); injection Hl as <-;
    injection Hv as <-; exists "foo  bar";
    (split; [reflexivity|]); by exists "fo", "ar".
Qed.

(** The names page keeps no rendered text apart from its text
    content. *)
Lemma names_page_stable filter p :
  stable_text (Sample.names_page filter) p.
Proof.
  intros e He r.
  assert (p ∈ paths (Sample.names_page filter)) as Hp.
  { apply elem_of_paths. by rewrite He. }
  vm_compute in Hp.
  repeat (apply elem_of_cons in Hp as [-> | Hp];
          [by injection He as <-|]).
  by apply elem_of_nil in Hp.
Qed.



(** The two calls on that page, evaluated. *)
Example filterTable_spaced :
  let once := filterTable "events" (Sample.spaced_page "o  b") in
  let again := twice (filterTable "events") (Sample.spaced_page "o  b") in
  once.1 = Normal tt ∧
  text_of (Sample.spaced_page "o  b") (cell_of (Sample.row_path 0) 0)
  = Some "foo bar" ∧
  display_of once.2 (Sample.row_path 0) = Some "none" ∧
  text_of once.2 (cell_of (Sample.row_path 0) 0) = Some "foo  bar" ∧
  display_of again.2 (Sample.row_path 0) = Some "".
Proof. vm_compute. done. Qed.

(** P4 of the specification, evaluated: filter ["ali"] over the rows
    Alice, Bob and Alisha (the last one hidden before the call). *)
Example filterTable_names :
  let doc' := (filterTable "events" (Sample.names_page "ali")).2 in
  (filterTable "events" (Sample.names_page "ali")).1 = Normal tt ∧
  display_of doc' (Sample.row_path 0) = Some "" ∧
  display_of doc' (Sample.row_path 1) = Some "none" ∧
  display_of doc' (Sample.row_path 2) = Some "".
Proof. vm_compute. done. Qed.

(** P6 of the specification, evaluated, with a checked box in a hidden
    row: the payload is the array of 7 and 9. *)
Example collectBulkIds_names :
  let doc' := (collectBulkIds "events" "bulk-ids" (Sample.names_page "")).2 in
  value_of doc' Sample.hidden_path
  = Some (JSON.stringify ["7"; "9"]) ∧
  JSON.stringify ["7"; "9"]
  = String "[" (String JSON.dquote (String "7" (String JSON.dquote
      (String "," (String JSON.dquote (String "9" (String JSON.dquote
        "]"))))))).
Proof. vm_compute. done. Qed.

Lemma short_page_filters f0 f1 :
  select (Sample.short_page f0 f1) Sample.table_path sel_filter_input
  = [[3; 0; 0; 1; 0]; [3; 0; 0; 2; 0]].
Proof. reflexivity. Qed.

Lemma filterTable_short_rows_witness :
  ∃ doc',
    filterTable "events" (Sample.short_page "" "") = (Normal tt, doc') ∧
    ∀ row,
      row ∈ select (Sample.short_page "" "") Sample.table_path sel_tbody_tr →
      display_of doc' row = Some "".
Proof.
  destruct (filterTable_short_rows (Sample.short_page "" "") "events"
              Sample.table_path eq_refl) as (doc' & Hrun & Hall).
  { intros row i f v _ Hl Hv _. rewrite short_page_filters in Hl.
    destruct i as [|[|i]]; simpl in Hl; [| |done];
      injection Hl as <-; vm_compute in Hv; congruence. }
  exists doc'. split; [exact Hrun|]. apply Hall.
  intros f v Hf Hv. rewrite short_page_filters in Hf.
  apply elem_of_cons in Hf as [-> | Hf];
    [|apply elem_of_cons in Hf as [-> | Hf]; [|by apply elem_of_nil in Hf]];
    vm_compute in Hv; congruence.
Defined.

(** Short rows, evaluated: empty filters are harmless, a non-empty one
    whose cell is missing in some row throws. *)
Example filterTable_short_ok :
  (filterTable "events" (Sample.short_page "" "")).1 = Normal tt.
Proof. reflexivity. Qed.

Example filterTable_short_throws :
  (filterTable "events" (Sample.short_page "ali" "")).1 = Throw TypeError.
Proof. reflexivity. Qed.

Lemma toggleSelectAll_then_collect_witness :
  ∃ doc' ids,
    and_then (toggleSelectAll (Some [3; 1; 0; 0; 0]) "events")
             (collectBulkIds "events" "bulk-ids") (Sample.names_page "")
    = (Normal tt, doc') ∧
    value_of doc' Sample.hidden_path = Some (JSON.stringify ids) ∧
    Forall2 (λ q v, value_of (Sample.names_page "") q = Some v)
      (select (Sample.names_page "") Sample.table_path sel_event_checkbox)
      ids.
Proof.
  destruct (toggleSelectAll_then_collect (Sample.names_page "")
              [3; 1; 0; 0; 0] "events" "bulk-ids"
              Sample.table_path Sample.hidden_path _
              eq_refl eq_refl eq_refl)
    as (doc' & ids & Hrun & Hv & Hall & _).
  exists doc', ids. split; [exact Hrun|]. split; [exact Hv|].
  apply Hall. reflexivity.
Defined.

Lemma toggleSection_missing_icon_witness :
  ∃ doc',
    toggleSection "details" "no-such-icon" (Sample.page "none" [] [] [])
    = (Throw TypeError, doc') ∧
    display_of doc' Sample.section_path = Some "block".
Proof.
  destruct (toggleSection_missing_icon (Sample.page "none" [] [] [])
              "details" "no-such-icon" Sample.section_path _
              eq_refl eq_refl eq_refl) as (doc' & Hrun & Hd & _).
  exists doc'. split; [exact Hrun | exact Hd].
Defined.

Lemma toggleSection_frame_witness :
  ∃ doc',
    toggleSection "details" "details-icon"
      (Sample.page "" ["chevron"; "open"] [""] [])
    = (Normal tt, doc') ∧
    has_class doc' Sample.icon_path "chevron" = Some true.
Proof.
  destruct (toggleSection_frame (Sample.page "" ["chevron"; "open"] [""] [])
              "details" "details-icon" Sample.section_path Sample.icon_path
              eq_refl eq_refl) as (doc' & Hrun & _ & _ & Hclass & _).
  exists doc'. split; [exact Hrun|].
  rewrite (Hclass "chevron"); [reflexivity | discriminate].
Defined.

Lemma toggleSection_two_cycle_witness :
  ∃ doc1 doc3,
    toggleSection "details" "details-icon" (Sample.page "" [] [] [])
    = (Normal tt, doc1) ∧
    twice (toggleSection "details" "details-icon") doc1 = (Normal tt, doc3) ∧
    display_of doc3 Sample.section_path = display_of doc1 Sample.section_path.
Proof.
  destruct (toggleSection_two_cycle (Sample.page "" [] [] [])
              "details" "details-icon" Sample.section_path Sample.icon_path
              eq_refl eq_refl) as (doc1 & doc3 & H1 & H3 & Hd & _).
  exists doc1, doc3. split; [exact H1|]. split; [exact H3 | exact Hd].
Defined.

Lemma collectBulkIds_frame_witness :
  ∃ doc',
    collectBulkIds "events" "bulk-ids" (Sample.names_page "")
    = (Normal tt, doc') ∧
    checked_boxes doc' Sample.table_path
    = checked_boxes (Sample.names_page "") Sample.table_path.
Proof.
  destruct (collectBulkIds_frame (Sample.names_page "") "events" "bulk-ids"
              Sample.table_path Sample.hidden_path eq_refl eq_refl)
    as (doc' & Hrun & _ & _ & Hboxes).
  exists doc'. split; [exact Hrun | exact Hboxes].
Defined.

Lemma collectBulkIds_idempotent_witness :
  twice (collectBulkIds "events" "bulk-ids") (Sample.names_page "")
  = collectBulkIds "events" "bulk-ids" (Sample.names_page "").
Proof.
  apply (collectBulkIds_idempotent (Sample.names_page "")
           "events" "bulk-ids" Sample.table_path Sample.hidden_path
           eq_refl eq_refl).
  vm_compute. intros H.
  repeat (apply elem_of_cons in H as [H | H]; [discriminate|]).
  by apply elem_of_nil in H.
Defined.

Lemma unresolved_id_throws_witness :
  filterTable "no-such-table" (Sample.names_page "ali")
  = (Throw TypeError, Sample.names_page "ali") ∧
  collectBulkIds "events" "no-such-input" (Sample.names_page "ali")
  = (Throw TypeError, Sample.names_page "ali").
Proof.
  split.
  - apply (unresolved_id_throws (Sample.names_page "ali") "no-such-table"
             eq_refl None "").
  - apply (unresolved_id_throws (Sample.names_page "ali") "no-such-input"
             eq_refl None "events").
Defined.

Lemma filterTable_throws_iff_witness :
  (filterTable "events" (Sample.short_page "ali" "")).1 = Throw TypeError ↔
  ∃ row,
    row ∈ select (Sample.short_page "ali" "") Sample.table_path
            sel_tbody_tr ∧
    cell_missing (Sample.short_page "ali" "")
      (select (Sample.short_page "ali" "") Sample.table_path
         sel_filter_input) row.
Proof.
  exact (filterTable_throws_iff (Sample.short_page "ali" "") "events"
           Sample.table_path eq_refl).
Defined.

Lemma filterTable_partial_on_throw_witness :
  ∃ doc',
    filterTable "events" (Sample.short_page "ali" "")
    = (Throw TypeError, doc') ∧
    (∀ q, q ∉ [Sample.row_path 0] →
          display_of doc' q = display_of (Sample.short_page "ali" "") q).
Proof.
  destruct (filterTable_partial_on_throw (Sample.short_page "ali" "")
              "events" Sample.table_path
              [Sample.row_path 0] (Sample.row_path 1) [] eq_refl eq_refl)
    as (doc' & Hrun & _ & Hrest & _).
  - intros q Hq i f v Hl Hv Hne.
    apply list_elem_of_singleton in Hq as ->.
    rewrite short_page_filters in Hl.
    destruct i as [|[|i]]; simpl in Hl; [| |done]; injection Hl as <-.
    + vm_compute. eauto.
    + vm_compute in Hv. congruence.
  - exists 0, [3; 0; 0; 1; 0], "ali". repeat split. discriminate.
  - exists doc'. split; [exact Hrun | exact Hrest].
Defined.

Lemma filterTable_ignores_prior_display_witness :
  ∃ doc' doc2',
    filterTable "events" (Sample.names_page "ali") = (Normal tt, doc') ∧
    filterTable "events"
      (update (Sample.row_path 0) (set_display "none")
         (Sample.names_page "ali")) = (Normal tt, doc2') ∧
    ∀ row, row ∈ select (Sample.names_page "ali") Sample.table_path
                   sel_tbody_tr →
           display_of doc2' row = display_of doc' row.
Proof.
  apply (filterTable_ignores_prior_display (Sample.names_page "ali")
           (update (Sample.row_path 0) (set_display "none")
              (Sample.names_page "ali"))
           "events" Sample.table_path).
  - apply same_but_display_update.
  - reflexivity.
  - by apply wide_enough_cells_present.
  - intros row i _. apply names_page_stable.
Defined.

Lemma filterTable_then_collect_witness :
  ∃ doc2 doc3,
    and_then (filterTable "events") (collectBulkIds "events" "bulk-ids")
      (Sample.names_page "bob") = (Normal tt, doc2) ∧
    collectBulkIds "events" "bulk-ids" (Sample.names_page "bob")
    = (Normal tt, doc3) ∧
    value_of doc2 Sample.hidden_path = value_of doc3 Sample.hidden_path.
Proof.
  apply (filterTable_then_collect (Sample.names_page "bob")
           "events" "bulk-ids" Sample.table_path Sample.hidden_path
           eq_refl eq_refl).
  by apply wide_enough_cells_present.
Defined.

Lemma filterTable_case_insensitive_witness :
  (filterTable "events" (Sample.names_page "ALI")).1
  = (filterTable "events" (Sample.names_page "ali")).1 ∧
  ∀ q, display_of (filterTable "events" (Sample.names_page "ALI")).2 q
       = display_of (filterTable "events" (Sample.names_page "ali")).2 q.
Proof.
  apply (filterTable_case_insensitive (Sample.names_page "ali")
           (Sample.names_page "ALI") "events").
  split; [reflexivity|]. intros q.
  destruct (decide (q ∈ paths (Sample.names_page "ali"))) as [Hq | Hq].
  - vm_compute in Hq.
    repeat (apply elem_of_cons in Hq as [-> | Hq];
            [vm_compute; by repeat split|]).
    by apply elem_of_nil in Hq.
  - assert (get (Sample.names_page "ali") q = None) as ->.
    { apply eq_None_not_Some. by rewrite <-elem_of_paths. }
    assert (get (Sample.names_page "ALI") q = None) as ->; [|done].
    apply eq_None_not_Some. by rewrite <-elem_of_paths.
Defined.

Lemma select_and_filter_commute_witness :
  ∃ doc',
    and_then (toggleSelectAll (Some Sample.select_all_path) "events")
             (filterTable "events") (Sample.names_page "ali")
    = (Normal tt, doc') ∧
    and_then (filterTable "events")
             (toggleSelectAll (Some Sample.select_all_path) "events")
             (Sample.names_page "ali")
    = (Normal tt, doc').
Proof.
  apply (select_and_filter_commute (Sample.names_page "ali")
           Sample.select_all_path "events" Sample.table_path _
           eq_refl eq_refl).
  by apply wide_enough_cells_present.
Defined.
